(** * cpar: crop preserving aspect ratio

    A shallow embedding of the per-image core of [src/main.rs]:
    the two edge scans (lines 82-99), the emptiness check (102-104),
    the percentile selection with the extra margin (107-112), the
    aspect-ratio computation (115-123) and the arguments handed to
    [resize_exact] (132-136); around it, the resolution of the
    command-line arguments (7-57, 63-68) and the loop over the sources
    with its file names, I/O errors, panics and saves (70-143), the file
    system being left abstract.

    Machine arithmetic is written out:
    - [u32] and [usize] values are [Z] with their range;
    - [f32] is the IEEE-754 binary32 format, i.e. the Standard Library's
      [spec_float] at precision 24 and maximal exponent 128, with its
      round-to-nearest-even operations;
    - an integer subtraction of two [u32] panics when overflow checks are
      on (debug profile) and wraps modulo 2^32 when they are off
      (release profile); the profile is an explicit parameter. *)

From Stdlib Require Import ZArith List Bool Lia.
From Stdlib Require Import Floats.SpecFloat.
From Stdlib Require String.
Import String.StringSyntax.
Import ListNotations.

Open Scope Z_scope.

(** ** Machine numbers *)

Module F32.

Definition prec : Z := 24.
Definition emax : Z := 128.

(** [n as f32] for an integer [n] (round to nearest, ties to even). *)
Definition of_Z (n : Z) : spec_float := binary_normalize prec emax n 0 false.

Definition add : spec_float -> spec_float -> spec_float := SFadd prec emax.
Definition sub : spec_float -> spec_float -> spec_float := SFsub prec emax.
Definition mul : spec_float -> spec_float -> spec_float := SFmul prec emax.
Definition div : spec_float -> spec_float -> spec_float := SFdiv prec emax.
Definition ltb : spec_float -> spec_float -> bool := SFltb.

Definition one : spec_float := of_Z 1.

(** [f32::floor]: the largest integer not above [x]; zeros, infinities
    and NaN are returned unchanged. *)
Definition floor (x : spec_float) : spec_float :=
  match x with
  | S754_finite s m e =>
      if 0 <=? e then x
      else binary_normalize prec emax
             (Z.div (cond_Zopp s (Zpos m)) (2 ^ (- e))) 0 s
  | _ => x
  end.

(** [x as uN] for an unsigned integer type whose largest value is
    [max]: rounding toward zero, saturating at [0] and [max], NaN
    giving [0]. *)
Definition to_uint (max : Z) (x : spec_float) : Z :=
  match x with
  | S754_finite false m e => Z.min max (Z.shiftl (Zpos m) e)
  | S754_infinity false => max
  | _ => 0
  end.

End F32.

Abbreviation f32 := spec_float.

Definition u32_max : Z := 2 ^ 32 - 1.
Definition usize_max : Z := 2 ^ 64 - 1.

(** [a - b] on [u32] operands: [None] is the "attempt to subtract with
    overflow" panic of a build with overflow checks, otherwise the
    difference wraps modulo 2^32. *)
Definition u32_sub (overflow_checks : bool) (a b : Z) : option Z :=
  if overflow_checks && (a <? b) then None
  else Some ((a - b) mod 2 ^ 32).

(** ** The pixel grid

    [luma img x y] is [img.get_pixel(x, y).to_luma().0[0]], a [u8]. *)
Record image := {
  width : nat;
  height : nat;
  luma : nat -> nat -> Z
}.

(** ** The resolved configuration of one run (lines 63-68 and the
    [blur] and [downscale] flags). *)
Record config := {
  x_threshold : Z;
  y_threshold : Z;
  x_percentile_arg : Z;   (* the u8 percentile, 0..100 *)
  y_percentile_arg : Z;
  x_extra : Z;
  y_extra : Z;
  blur : option f32;
  downscale : f32
}.

(** ** EdgeScanner (lines 81-99) *)

(** The inner loop [for x in (0..n).rev() { if p(x) { ...; break } }]:
    the first index met going down from [n-1] to [0]. *)
Fixpoint rev_find (p : nat -> bool) (n : nat) : option nat :=
  match n with
  | O => None
  | S k => if p k then Some k else rev_find p k
  end.

(** One iteration of an outer loop: push the index the inner loop
    breaks at, if any. *)
Definition push_found (acc : list Z) (found : option nat) : list Z :=
  match found with
  | Some i => acc ++ [Z.of_nat i]
  | None => acc
  end.

(** Right edge: for each row [y], the last column darker than [t]. *)
Definition scan_x (img : image) (t : Z) : list Z :=
  fold_left
    (fun acc y => push_found acc (rev_find (fun x => luma img x y <? t) (width img)))
    (seq 0 (height img)) [].

(** Bottom edge: for each column [x], the last row darker than [t]. *)
Definition scan_y (img : image) (t : Z) : list Z :=
  fold_left
    (fun acc x => push_found acc (rev_find (fun y => luma img x y <? t) (height img)))
    (seq 0 (width img)) [].

(** ** PercentileSelector (lines 65-66, 107-112) *)

(** [sort_unstable] on a [Vec<u32>]: the ascending permutation. *)
Fixpoint insert_sorted (a : Z) (l : list Z) : list Z :=
  match l with
  | [] => [a]
  | b :: l' => if a <=? b then a :: l else b :: insert_sorted a l'
  end.

Fixpoint sort_unstable (l : list Z) : list Z :=
  match l with
  | [] => []
  | a :: l' => insert_sorted a (sort_unstable l')
  end.

(** Lines 65-66: [1.0 - p as f32 / 100.0]. *)
Definition percentile_fraction (p : Z) : f32 :=
  F32.sub F32.one (F32.div (F32.of_Z p) (F32.of_Z 100)).

(** Lines 109-110: [(frac * (len - 1) as f32).floor() as usize]. *)
Definition percentile_index (frac : f32) (len : Z) : Z :=
  F32.to_uint usize_max
    (F32.floor (F32.mul frac (F32.of_Z (len - 1)))).

(** Outcomes of the per-image code: a panic, or the arguments of the
    final [resize_exact] together with the crop and the optional blur. *)
Inductive panic_reason :=
| DetectionFailed        (* "Failed to detect sides of image" *)
| IndexOutOfBounds       (* [get(..).unwrap()] on [None] *)
| SubtractOverflow.      (* "attempt to subtract with overflow" *)

Definition run (A : Type) : Type := (panic_reason + A)%type.

Definition ret {A} (a : A) : run A := inr a.
Definition panic {A} (r : panic_reason) : run A := inl r.
Definition bind {A B} (m : run A) (k : A -> run B) : run B :=
  match m with inl r => inl r | inr a => k a end.

Notation "'let*' x := m 'in' k" := (bind m (fun x => k))
  (at level 200, x name, m at level 100, k at level 200).

Definition unwrap {A} (o : option A) : run A :=
  match o with Some a => ret a | None => panic IndexOutOfBounds end.

Definition checked {A} (o : option A) : run A :=
  match o with Some a => ret a | None => panic SubtractOverflow end.

(** Line 111 (resp. 112): the element at [index] of the sorted vector,
    unwrapped, minus [extra], then [.max(0)]. *)
Definition select_edge (overflow_checks : bool) (sorted : list Z) (index extra : Z)
  : run Z :=
  let* raw := unwrap (nth_error sorted (Z.to_nat index)) in
  let* d := checked (u32_sub overflow_checks raw extra) in
  ret (Z.max d 0).

(** One axis of lines 107-112: sort, index at the percentile, select. *)
Definition select_axis (overflow_checks : bool) (offsets : list Z) (frac : f32)
    (extra : Z) : run Z :=
  let sorted := sort_unstable offsets in
  select_edge overflow_checks sorted
    (percentile_index frac (Z.of_nat (length sorted))) extra.

(** ** AspectRatioResizer (lines 115-123, 133-134) *)

Definition new_dims (w h x_edge y_edge : Z) : f32 * f32 :=
  let f_width := F32.of_Z w in
  let f_height := F32.of_Z h in
  let x_rel_size := F32.div (F32.of_Z x_edge) f_width in
  let y_rel_size := F32.div (F32.of_Z y_edge) f_height in
  if F32.ltb x_rel_size y_rel_size
  then (F32.of_Z x_edge, F32.mul x_rel_size (F32.floor f_height))
  else (F32.mul y_rel_size f_width, F32.of_Z y_edge).

Definition target_dims (w h x_edge y_edge : Z) (d : f32) : Z * Z :=
  let '(new_x, new_y) := new_dims w h x_edge y_edge in
  (F32.to_uint u32_max (F32.floor (F32.div new_x d)),
   F32.to_uint u32_max (F32.floor (F32.div new_y d))).

(** ** Pipeline: the body of the [for path in args.source] loop after
    decoding (lines 78-136). *)

Record processed := {
  crop_x_edge : Z;        (* [crop_imm(0, 0, x_edge, y_edge)] *)
  crop_y_edge : Z;
  blurred_by : option f32;
  resize_width : Z;       (* the arguments of [resize_exact] *)
  resize_height : Z
}.

(** [Vec::is_empty]. *)
Definition is_empty {A} (l : list A) : bool :=
  match l with [] => true | _ => false end.

Definition process_image (overflow_checks : bool) (cfg : config) (img : image)
  : run processed :=
  let xs := scan_x img (x_threshold cfg) in
  let ys := scan_y img (y_threshold cfg) in
  if is_empty xs || is_empty ys then panic DetectionFailed
  else
    let* x_edge := select_axis overflow_checks xs
                     (percentile_fraction (x_percentile_arg cfg)) (x_extra cfg) in
    let* y_edge := select_axis overflow_checks ys
                     (percentile_fraction (y_percentile_arg cfg)) (y_extra cfg) in
    let '(nw, nh) :=
      target_dims (Z.of_nat (width img)) (Z.of_nat (height img)) x_edge y_edge
        (downscale cfg) in
    ret {| crop_x_edge := x_edge; crop_y_edge := y_edge;
           blurred_by := blur cfg; resize_width := nw; resize_height := nh |}.

(** ** Reading of the scans

    What one row contributes to the x-axis offsets: [Some x] when [x] is
    the largest column of the row darker than [t], [None] when the whole
    row is at least [t]; and the same for one column of the y-axis. *)
Definition row_offset_spec (img : image) (t : Z) (y : nat) (o : option nat) : Prop :=
  match o with
  | Some x => (x < width img)%nat /\ luma img x y < t /\
              forall x', (x < x' < width img)%nat -> t <= luma img x' y
  | None => forall x, (x < width img)%nat -> t <= luma img x y
  end.

Definition column_offset_spec (img : image) (t : Z) (x : nat) (o : option nat) : Prop :=
  match o with
  | Some y => (y < height img)%nat /\ luma img x y < t /\
              forall y', (y < y' < height img)%nat -> t <= luma img x y'
  | None => forall y, (y < height img)%nat -> t <= luma img x y
  end.

(** The entry a line contributes: nothing when it has no dark pixel. *)
Definition entries (o : option nat) : list Z :=
  match o with Some i => [Z.of_nat i] | None => [] end.

(** A [W] x [H] grid of luminance 255 with a solid rectangle of
    luminance 0 on [[0,w) x [0,h)]. *)
Definition rect_image (W H w h : nat) : image := {|
  width := W;
  height := H;
  luma := fun x y => if (Nat.ltb x w && Nat.ltb y h)%bool then 0 else 255
|}.

(** ** Helpers for stating properties of the pipeline *)

(** The same configuration with another [--blur] argument. *)
Definition with_blur (cfg : config) (b : option f32) : config := {|
  x_threshold := x_threshold cfg; y_threshold := y_threshold cfg;
  x_percentile_arg := x_percentile_arg cfg; y_percentile_arg := y_percentile_arg cfg;
  x_extra := x_extra cfg; y_extra := y_extra cfg;
  blur := b; downscale := downscale cfg
|}.

(** The crop rectangle and the target dimensions of an outcome (the
    panic, if any, is kept). *)
Definition crop_and_dims (r : run processed) : run (Z * Z * Z * Z) :=
  match r with
  | inl e => inl e
  | inr p => inr (crop_x_edge p, crop_y_edge p, resize_width p, resize_height p)
  end.

(** A configuration with the same threshold, percentile and extra margin
    on both axes. *)
Definition uniform_config (t p e : Z) (b : option f32) (d : f32) : config := {|
  x_threshold := t; y_threshold := t;
  x_percentile_arg := p; y_percentile_arg := p;
  x_extra := e; y_extra := e;
  blur := b; downscale := d
|}.

(** The target dimensions as the resizer is described in prose: the
    dependent side is floored first, then both sides are divided by the
    downscale factor and floored. *)
Definition spec_target_dims (w h x_edge y_edge : Z) (d : f32) : Z * Z :=
  let rel_x := F32.div (F32.of_Z x_edge) (F32.of_Z w) in
  let rel_y := F32.div (F32.of_Z y_edge) (F32.of_Z h) in
  let '(new_width, new_height) :=
    if F32.ltb rel_x rel_y
    then (F32.of_Z x_edge, F32.floor (F32.mul rel_x (F32.of_Z h)))
    else (F32.floor (F32.mul rel_y (F32.of_Z w)), F32.of_Z y_edge) in
  (F32.to_uint u32_max (F32.floor (F32.div new_width d)),
   F32.to_uint u32_max (F32.floor (F32.div new_height d))).

(** The downscale factor [1.5], as [3.0 / 2.0]. *)
Definition one_and_a_half : f32 := F32.div (F32.of_Z 3) (F32.of_Z 2).

(** ** The command line (lines 7-57) and its resolution (lines 63-68)

    A [PathBuf] is kept as its list of components ([Path::components],
    Unix paths), an [OsStr] as a [string]. *)
Inductive component :=
| RootDir
| CurDir
| ParentDir
| Normal (s : String.string).

Definition path : Type := list component.

(** The fields of [struct CPAR] after [CPAR::parse()]: an absent flag
    holds its [default_value_t], an absent [Option] flag is [None]. *)
Record cli_args := {
  arg_source : list path;
  arg_output : path;
  arg_threshold : Z;                 (* u8, default 250 *)
  arg_x_threshold : option Z;        (* Option<u8> *)
  arg_y_threshold : option Z;
  arg_percentile : Z;                (* u8 in 0..=100, default 95 *)
  arg_x_percentile : option Z;       (* Option<u8> in 0..=100 *)
  arg_y_percentile : option Z;
  arg_extra : Z;                     (* u32, default 0 *)
  arg_x_extra : option Z;            (* Option<u32> *)
  arg_y_extra : option Z;
  arg_blur : option f32;
  arg_downscale : f32                (* default 1.0 *)
}.

(** The ranges the parser enforces: the [u8] and [u32] types of the
    fields and the [range(0..=100)] of the three percentile flags. *)
Definition in_range (lo hi v : Z) : bool := (lo <=? v) && (v <=? hi).

Definition opt_in_range (lo hi : Z) (o : option Z) : bool :=
  match o with Some v => in_range lo hi v | None => true end.

Definition args_in_range (a : cli_args) : bool :=
  in_range 0 255 (arg_threshold a) &&
  opt_in_range 0 255 (arg_x_threshold a) && opt_in_range 0 255 (arg_y_threshold a) &&
  in_range 0 100 (arg_percentile a) &&
  opt_in_range 0 100 (arg_x_percentile a) && opt_in_range 0 100 (arg_y_percentile a) &&
  in_range 0 u32_max (arg_extra a) &&
  opt_in_range 0 u32_max (arg_x_extra a) && opt_in_range 0 u32_max (arg_y_extra a).

(** [Option::unwrap_or]. *)
Definition unwrap_or {A} (o : option A) (d : A) : A :=
  match o with Some a => a | None => d end.

(** Lines 63-68; the percentile fractions of lines 65-66 are
    [percentile_fraction] of the resolved percentiles, computed in
    [process_image]. [blur] and [downscale] are read from [args]. *)
Definition resolve_config (a : cli_args) : config := {|
  x_threshold := unwrap_or (arg_x_threshold a) (arg_threshold a);
  y_threshold := unwrap_or (arg_y_threshold a) (arg_threshold a);
  x_percentile_arg := unwrap_or (arg_x_percentile a) (arg_percentile a);
  y_percentile_arg := unwrap_or (arg_y_percentile a) (arg_percentile a);
  x_extra := unwrap_or (arg_x_extra a) (arg_extra a);
  y_extra := unwrap_or (arg_y_extra a) (arg_extra a);
  blur := arg_blur a;
  downscale := arg_downscale a
|}.

(** ** The loop over the sources (lines 70-143)

    The file system is left abstract: whether [fs::create_dir_all]
    succeeds on a path; what [ImageReader::open(path)?.decode()] gives
    ([None]: [open] fails with an I/O error, returned by [?];
    [Some None]: [decode] fails); whether [save] of an output to a path
    succeeds; and whether an [OsStr] is valid Unicode ([to_str]). *)
Record environment := {
  create_dir_all_ok : path -> bool;
  open_decode : path -> option (option image);
  save_ok : path -> processed -> bool;
  valid_unicode : String.string -> bool
}.

(** [Path::file_name]: the last component when it is a normal one
    ([None] for a path ending in [..], for [/] and for [.]). *)
Definition file_name (p : path) : option String.string :=
  match rev p with
  | Normal s :: _ => Some s
  | _ => None
  end.

(** [OsStr::to_str]. *)
Definition to_str (env : environment) (s : String.string) : option String.string :=
  if valid_unicode env s then Some s else None.

(** [PathBuf::join] with a file name (one normal component). *)
Definition join (base : path) (name : String.string) : path :=
  base ++ [Normal name].

Inductive main_panic :=
| DecodeFailed                     (* "failed to decode image" *)
| NoFileName                       (* [file_name().unwrap()] *)
| NotUnicode                       (* [to_str().unwrap()] *)
| ProcessingPanic (r : panic_reason)
| SaveFailed.                      (* "Failed to save output" *)

Inductive exit_status :=
| ExitOk                           (* [Ok(())] *)
| ExitIoError                      (* an [Err] returned by [?] *)
| ExitPanic (p : main_panic).

(** The loop: the outputs saved, in order, each with its destination,
    and how the program ends. The file name taken at line 76 is taken
    again at line 139 with the same result. *)
Fixpoint process_sources (overflow_checks : bool) (cfg : config) (env : environment)
    (output : path) (sources : list path) : list (path * processed) * exit_status :=
  match sources with
  | [] => ([], ExitOk)
  | src :: rest =>
      match open_decode env src with
      | None => ([], ExitIoError)
      | Some None => ([], ExitPanic DecodeFailed)
      | Some (Some img) =>
          match file_name src with
          | None => ([], ExitPanic NoFileName)
          | Some os =>
              match to_str env os with
              | None => ([], ExitPanic NotUnicode)
              | Some filename =>
                  match process_image overflow_checks cfg img with
                  | inl r => ([], ExitPanic (ProcessingPanic r))
                  | inr out =>
                      let dest := join output filename in
                      if save_ok env dest out then
                        let '(saved, st) :=
                          process_sources overflow_checks cfg env output rest in
                        ((dest, out) :: saved, st)
                      else ([], ExitPanic SaveFailed)
                  end
              end
          end
      end
  end.

Definition cpar_main (overflow_checks : bool) (env : environment) (args : cli_args)
  : list (path * processed) * exit_status :=
  if create_dir_all_ok env (arg_output args) then
    process_sources overflow_checks (resolve_config args) env (arg_output args)
      (arg_source args)
  else ([], ExitIoError).

(** A source handled to the end: decoded, named, processed and saved
    under the output folder with its file name. *)
Definition saved_as (overflow_checks : bool) (cfg : config) (env : environment)
    (output : path) (src : path) (o : path * processed) : Prop :=
  exists img name,
    open_decode env src = Some (Some img) /\
    file_name src = Some name /\
    valid_unicode env name = true /\
    process_image overflow_checks cfg img = inr (snd o) /\
    fst o = join output name /\
    save_ok env (fst o) (snd o) = true.

(** The sign bit of an [f32] is [s], or it is NaN. *)
Definition sign_or_nan (s : bool) (f : f32) : bool :=
  match f with
  | S754_zero s' | S754_infinity s' | S754_finite s' _ _ => Bool.eqb s' s
  | S754_nan => true
  end.

(** A downscale factor under which every size collapses to 0:
    a negative number, [-0.0], an infinity or NaN. *)
Definition collapsing_factor (d : f32) : bool :=
  match d with
  | S754_zero s | S754_finite s _ _ => s
  | S754_infinity _ | S754_nan => true
  end.

(** Two images with the same dimensions and the same pixels inside
    them. *)
Definition same_pixels (img1 img2 : image) : Prop :=
  width img1 = width img2 /\ height img1 = height img2 /\
  forall x y, (x < width img1)%nat -> (y < height img1)%nat ->
    luma img1 x y = luma img2 x y.

(** The percentile fraction of [p] lies in [[+0.0, 1.0]]. *)
Definition fraction_in_unit (p : Z) : bool :=
  SFleb (S754_zero false) (percentile_fraction p) && SFleb (percentile_fraction p) F32.one.

(** The fraction of [p] is at least that of every larger percentile
    in [0..=100]. *)
Definition fraction_antitone_at (p : Z) : bool :=
  forallb (fun k => (Z.of_nat k <? p) ||
                    SFleb (percentile_fraction (Z.of_nat k)) (percentile_fraction p))
          (seq 0 101).

(** An example environment: a source given by a one-component path
    does not decode, every other source decodes to [rect_image 5 4 2 3];
    every save succeeds. *)
Definition example_env : environment := {|
  create_dir_all_ok := fun _ => true;
  open_decode := fun p => match p with
                          | [_] => Some None
                          | _ => Some (Some (rect_image 5 4 2 3))
                          end;
  save_ok := fun _ _ => true;
  valid_unicode := fun _ => true
|}.

(** [cpar in/a.png b.png out --yt 200 --yp 50]. *)
Open Scope string_scope.

Definition example_args : cli_args := {|
  arg_source := [[Normal "in"; Normal "a.png"]; [Normal "b.png"]];
  arg_output := [Normal "out"];
  arg_threshold := 250; arg_x_threshold := None; arg_y_threshold := Some 200;
  arg_percentile := 95; arg_x_percentile := None; arg_y_percentile := Some 50;
  arg_extra := 0; arg_x_extra := None; arg_y_extra := None;
  arg_blur := None; arg_downscale := F32.one
|}.

Close Scope string_scope.

(** ** Values of f32 numbers as integers

    [sval m e] is [m * 2^e] scaled by [2^300]: every exponent met below is
    at least [-300], so values compare as integers. *)
Definition sval (m e : Z) : Z := m * 2 ^ (e + 300).

(** A percentile fraction is [+0.0] or a positive finite value at most
    [1.0] whose exponent lies in [[-149, 0]]. *)
Definition fraction_ok (f : f32) : bool :=
  match f with
  | S754_zero _ => true
  | S754_finite false m e => (sval (Zpos m) e <=? sval 1 0) && (-149 <=? e) && (e <=? 0)
  | _ => false
  end.

(** ** Lemmas on the scans *)

Lemma rev_find_some (p : nat -> bool) (n k : nat) :
  rev_find p n = Some k ->
  (k < n)%nat /\ p k = true /\ forall j, (k < j < n)%nat -> p j = false.
Proof.
  induction n as [|n IH]; simpl; [discriminate|].
  destruct (p n) eqn:Hp.
  - intros [= <-]. split; [lia|]. split; [assumption|]. intros j Hj; lia.
  - intros H. destruct (IH H) as (Hk & Hpk & Hj). split; [lia|]. split; [assumption|].
    intros j Hj'. destruct (Nat.eq_dec j n) as [->|Hne]; [assumption|]. apply Hj; lia.
Qed.

Lemma rev_find_none (p : nat -> bool) (n : nat) :
  rev_find p n = None -> forall j, (j < n)%nat -> p j = false.
Proof.
  induction n as [|n IH]; simpl; [intros; lia|].
  destruct (p n) eqn:Hp; [discriminate|].
  intros H j Hj. destruct (Nat.eq_dec j n) as [->|Hne]; [assumption|]. apply IH; [assumption|lia].
Qed.

Lemma rev_find_last (p : nat -> bool) (n k : nat) :
  (k < n)%nat -> p k = true -> (forall j, (k < j < n)%nat -> p j = false) ->
  rev_find p n = Some k.
Proof.
  induction n as [|n IH]; simpl; intros Hk Hpk Hj; [lia|].
  destruct (Nat.eq_dec k n) as [->|Hne]; [now rewrite Hpk|].
  rewrite (Hj n) by lia. apply IH; [lia|assumption|]. intros j ?; apply Hj; lia.
Qed.

Lemma rev_find_all_false (p : nat -> bool) (n : nat) :
  (forall j, (j < n)%nat -> p j = false) -> rev_find p n = None.
Proof.
  induction n as [|n IH]; simpl; intros Hj; [reflexivity|].
  rewrite (Hj n) by lia. apply IH. intros j ?; apply Hj; lia.
Qed.

Lemma fold_push_found {B} (g : B -> option nat) (l : list B) (acc : list Z) :
  fold_left (fun acc b => push_found acc (g b)) l acc
  = acc ++ flat_map (fun b => entries (g b)) l.
Proof.
  revert acc; induction l as [|b l IH]; intros acc; simpl.
  - now rewrite app_nil_r.
  - destruct (g b) as [i|]; simpl; rewrite IH; [now rewrite <- app_assoc | reflexivity].
Qed.

Lemma rev_find_offset_row (img : image) (t : Z) (y : nat) :
  row_offset_spec img t y (rev_find (fun x => luma img x y <? t) (width img)).
Proof.
  destruct (rev_find _ _) as [x|] eqn:E; simpl.
  - destruct (rev_find_some _ _ _ E) as (Hx & Hp & Hj).
    split; [assumption|]. split; [now apply Z.ltb_lt|].
    intros x' Hx'. specialize (Hj x' Hx'). apply Z.ltb_ge in Hj. assumption.
  - intros x Hx. pose proof (rev_find_none _ _ E x Hx) as Hj. now apply Z.ltb_ge in Hj.
Qed.

Lemma rev_find_offset_column (img : image) (t : Z) (x : nat) :
  column_offset_spec img t x (rev_find (fun y => luma img x y <? t) (height img)).
Proof.
  destruct (rev_find _ _) as [y|] eqn:E; simpl.
  - destruct (rev_find_some _ _ _ E) as (Hy & Hp & Hj).
    split; [assumption|]. split; [now apply Z.ltb_lt|].
    intros y' Hy'. specialize (Hj y' Hy'). apply Z.ltb_ge in Hj. assumption.
  - intros y Hy. pose proof (rev_find_none _ _ E y Hy) as Hj. now apply Z.ltb_ge in Hj.
Qed.

Lemma scan_x_offsets (img : image) (t : Z) :
  exists offs, Forall2 (row_offset_spec img t) (seq 0 (height img)) offs /\
               scan_x img t = flat_map entries offs.
Proof.
  exists (map (fun y => rev_find (fun x => luma img x y <? t) (width img))
              (seq 0 (height img))).
  split.
  - induction (seq 0 (height img)) as [|y l IH]; constructor;
      [apply rev_find_offset_row | exact IH].
  - unfold scan_x. rewrite fold_push_found. simpl.
    induction (seq 0 (height img)) as [|y l IH]; simpl; [reflexivity|]. now rewrite IH.
Qed.

Lemma scan_y_offsets (img : image) (t : Z) :
  exists offs, Forall2 (column_offset_spec img t) (seq 0 (width img)) offs /\
               scan_y img t = flat_map entries offs.
Proof.
  exists (map (fun x => rev_find (fun y => luma img x y <? t) (height img))
              (seq 0 (width img))).
  split.
  - induction (seq 0 (width img)) as [|x l IH]; constructor;
      [apply rev_find_offset_column | exact IH].
  - unfold scan_y. rewrite fold_push_found. simpl.
    induction (seq 0 (width img)) as [|x l IH]; simpl; [reflexivity|]. now rewrite IH.
Qed.

Lemma flat_map_const {B C} (f : B -> list C) (l : list B) (c : C) :
  (forall b, In b l -> f b = [c]) -> flat_map f l = repeat c (length l).
Proof.
  induction l as [|b l IH]; intros Hf; simpl; [reflexivity|].
  rewrite (Hf b (or_introl eq_refl)), IH; [reflexivity|]. intros b' Hb'; apply Hf; now right.
Qed.

Lemma flat_map_nil {B C} (f : B -> list C) (l : list B) :
  (forall b, In b l -> f b = []) -> flat_map f l = [].
Proof.
  induction l as [|b l IH]; intros Hf; simpl; [reflexivity|].
  rewrite (Hf b (or_introl eq_refl)), IH; [reflexivity|]. intros b' Hb'; apply Hf; now right.
Qed.

Section DarkRectangle.
(** A grid that is at least [t] everywhere except on the rectangle
    [[0,w) x [0,h)], where it is below [t]. *)
Variables (img : image) (t : Z) (w h : nat).
Hypothesis Hw : (1 <= w <= width img)%nat.
Hypothesis Hh : (1 <= h <= height img)%nat.
Hypothesis Hdark : forall x y, (x < width img)%nat -> (y < height img)%nat ->
  (luma img x y < t <-> (x < w)%nat /\ (y < h)%nat).

Lemma dark_rect_p x y : (x < width img)%nat -> (y < height img)%nat ->
  (luma img x y <? t) = (Nat.ltb x w && Nat.ltb y h)%bool.
Proof.
  intros Hx Hy. specialize (Hdark x y Hx Hy).
  destruct (luma img x y <? t) eqn:E, (Nat.ltb x w) eqn:E1, (Nat.ltb y h) eqn:E2;
    simpl; try reflexivity;
    rewrite ?Z.ltb_lt, ?Z.ltb_ge, ?Nat.ltb_lt, ?Nat.ltb_ge in *; lia.
Qed.

Lemma scan_x_dark_rect : scan_x img t = repeat (Z.of_nat (w - 1)) h.
Proof.
  unfold scan_x. rewrite fold_push_found. simpl.
  replace (height img) with (h + (height img - h))%nat by lia.
  rewrite seq_app, flat_map_app, (flat_map_nil _ (seq (0 + h) _)), app_nil_r.
  - rewrite (flat_map_const _ _ (Z.of_nat (w - 1))), length_seq; [reflexivity|].
    intros y Hy. apply in_seq in Hy.
    rewrite (rev_find_last _ _ (w - 1)); [reflexivity|lia| |].
    + rewrite dark_rect_p by lia. apply andb_true_intro; split; apply Nat.ltb_lt; lia.
    + intros j Hj. rewrite dark_rect_p by lia. apply andb_false_intro1, Nat.ltb_ge; lia.
  - intros y Hy. apply in_seq in Hy.
    rewrite rev_find_all_false; [reflexivity|].
    intros j Hj. rewrite dark_rect_p by lia. apply andb_false_intro2, Nat.ltb_ge; lia.
Qed.

Lemma scan_y_dark_rect : scan_y img t = repeat (Z.of_nat (h - 1)) w.
Proof.
  unfold scan_y. rewrite fold_push_found. simpl.
  replace (width img) with (w + (width img - w))%nat by lia.
  rewrite seq_app, flat_map_app, (flat_map_nil _ (seq (0 + w) _)), app_nil_r.
  - rewrite (flat_map_const _ _ (Z.of_nat (h - 1))), length_seq; [reflexivity|].
    intros x Hx. apply in_seq in Hx.
    rewrite (rev_find_last _ _ (h - 1)); [reflexivity|lia| |].
    + rewrite dark_rect_p by lia. apply andb_true_intro; split; apply Nat.ltb_lt; lia.
    + intros j Hj. rewrite dark_rect_p by lia. apply andb_false_intro2, Nat.ltb_ge; lia.
  - intros x Hx. apply in_seq in Hx.
    rewrite rev_find_all_false; [reflexivity|].
    intros j Hj. rewrite dark_rect_p by lia. apply andb_false_intro1, Nat.ltb_ge; lia.
Qed.
End DarkRectangle.

(** ** Lemmas on f32 rounding (precision 24, maximal exponent 128) *)

Module F32Facts.

Lemma digits2_pos_size (p : positive) : digits2_pos p = Pos.size p.
Proof. induction p as [p IH|p IH|]; simpl; rewrite ?IH; reflexivity. Qed.

Lemma Zdigits2_log2 (p : positive) : Zdigits2 (Zpos p) = Z.log2 (Zpos p) + 1.
Proof.
  simpl. rewrite digits2_pos_size.
  destruct p as [p|p|]; simpl; rewrite ?Pos2Z.inj_succ; lia.
Qed.

Lemma Zdigits2_bounds (p : positive) :
  2 ^ (Zdigits2 (Zpos p) - 1) <= Zpos p < 2 ^ Zdigits2 (Zpos p).
Proof.
  rewrite Zdigits2_log2. replace (Z.log2 (Zpos p) + 1 - 1) with (Z.log2 (Zpos p)) by lia.
  apply Z.log2_spec. lia.
Qed.

Lemma iter_pos_nat {A} (f : A -> A) (p : positive) (x : A) :
  iter_pos f p x = Nat.iter (Pos.to_nat p) f x.
Proof.
  revert x; induction p as [p IH|p IH|]; intros x.
  - change (iter_pos f p (iter_pos f p (f x)) = Nat.iter (Pos.to_nat p~1) f x).
    rewrite IH, IH, <- Nat.iter_add, Pos2Nat.inj_xI, Nat.iter_succ_r.
    f_equal. lia.
  - change (iter_pos f p (iter_pos f p x) = Nat.iter (Pos.to_nat p~0) f x).
    rewrite IH, IH, <- Nat.iter_add, Pos2Nat.inj_xO. f_equal. lia.
  - reflexivity.
Qed.

Lemma shr_1_nonneg (m : Z) (r s : bool) : 0 <= m ->
  shr_1 {| shr_m := m; shr_r := r; shr_s := s |}
  = {| shr_m := Z.div2 m; shr_r := Z.odd m; shr_s := r || s |}.
Proof.
  intros Hm. destruct m as [|p|p]; [reflexivity| |lia].
  destruct p; reflexivity.
Qed.

(** The remainder modulo [2^(k+1)] vanishes iff the one modulo [2^k]
    does and the next bit is clear. *)
Lemma mod_pow2_succ (M k : Z) : 0 <= k ->
  M mod 2 ^ (k + 1) = M mod 2 ^ k + 2 ^ k * ((M / 2 ^ k) mod 2).
Proof.
  intros Hk. symmetry. apply Z.mod_unique_pos with (q := M / 2 ^ k / 2).
  - pose proof (Z.mod_pos_bound M (2 ^ k) ltac:(lia)).
    pose proof (Z.mod_pos_bound (M / 2 ^ k) 2 ltac:(lia)).
    rewrite Z.pow_add_r by lia. nia.
  - rewrite Z.pow_add_r by lia.
    pose proof (Z.div_mod M (2 ^ k) ltac:(lia)).
    pose proof (Z.div_mod (M / 2 ^ k) 2 ltac:(lia)). nia.
Qed.

Lemma shr_iter_exact (k : nat) (M : Z) : 0 <= M ->
  let r := Nat.iter k shr_1 {| shr_m := M; shr_r := false; shr_s := false |} in
  shr_m r = M / 2 ^ Z.of_nat k /\
  (shr_r r || shr_s r)%bool = negb (M mod 2 ^ Z.of_nat k =? 0).
Proof.
  intros HM. induction k as [|k IH].
  - simpl. rewrite Z.div_1_r, Z.mod_1_r. split; reflexivity.
  - cbv zeta in *. rewrite Nat.iter_succ.
    destruct (Nat.iter k shr_1 _) as [m rr ss]. simpl in IH. destruct IH as [Hm Hrs].
    assert (0 <= m) by (rewrite Hm; apply Z.div_pos; lia).
    rewrite Nat2Z.inj_succ, <- Z.add_1_r.
    rewrite shr_1_nonneg by assumption. cbn [shr_m shr_r shr_s].
    split.
    + rewrite Z.div2_div, Hm, Z.div_div by lia. f_equal.
      rewrite Z.pow_add_r, Z.pow_1_r by lia. ring.
    + rewrite Hrs, mod_pow2_succ, <- Hm, Zmod_odd by lia.
      pose proof (Z.mod_pos_bound M (2 ^ Z.of_nat k) ltac:(lia)).
      assert (0 < 2 ^ Z.of_nat k) by lia.
      destruct (Z.odd m); simpl.
      * symmetry. apply negb_true_iff, Z.eqb_neq. lia.
      * rewrite Z.mul_0_r, Z.add_0_r. reflexivity.
Qed.

Lemma loc_exact_iff (r : shr_record) :
  loc_of_shr_record r = loc_Exact <-> (shr_r r || shr_s r)%bool = false.
Proof. destruct r as [m [|] [|]]; simpl; split; congruence. Qed.

Lemma shr_fexp_exact (m e : Z) : 0 <= m ->
  let k := Z.max 0 (fexp F32.prec F32.emax (Zdigits2 m + e) - e) in
  exists mrs, shr_fexp F32.prec F32.emax m e loc_Exact = (mrs, e + k) /\
    shr_m mrs = m / 2 ^ k /\
    (loc_of_shr_record mrs = loc_Exact <-> m mod 2 ^ k = 0).
Proof.
  intros Hm k. unfold shr_fexp, shr. cbn [shr_record_of_loc].
  subst k. destruct (fexp F32.prec F32.emax (Zdigits2 m + e) - e) as [|p|p].
  - eexists; split; [f_equal; lia|]. simpl. rewrite Z.div_1_r, Z.mod_1_r.
    split; [reflexivity|]. simpl. split; reflexivity.
  - eexists; split; [reflexivity|]. rewrite iter_pos_nat.
    destruct (shr_iter_exact (Pos.to_nat p) m Hm) as [H1 H2].
    rewrite positive_nat_Z in H1, H2. simpl (Z.max 0 (Zpos p)).
    split; [exact H1|]. rewrite loc_exact_iff, H2.
    rewrite negb_false_iff, Z.eqb_eq. reflexivity.
  - eexists; split; [f_equal; lia|]. simpl. rewrite Z.div_1_r, Z.mod_1_r.
    split; [reflexivity|]. simpl. split; reflexivity.
Qed.

Lemma round_nearest_even_bounds (m : Z) (l : location) :
  m <= round_nearest_even m l <= m + 1.
Proof.
  destruct l as [|[| |]]; simpl; try lia. destruct (Z.even m); lia.
Qed.

Lemma sval_shift (m e k : Z) : 0 <= k -> -300 <= e ->
  sval m (e + k) = m * 2 ^ k * 2 ^ (e + 300).
Proof.
  intros Hk He. unfold sval. replace (e + k + 300) with (k + (e + 300)) by lia.
  rewrite Z.pow_add_r by lia. ring.
Qed.

(** Rounding an exact positive value [M * 2^E] never goes above a point
    of the grid [2^e'] that is above the value, where [e'] is the
    exponent of the rounded result before the carry. *)
Lemma round_aux_exact_le (M E c : Z) : 0 < M -> -300 <= E ->
  let e' := E + Z.max 0 (fexp F32.prec F32.emax (Zdigits2 M + E) - E) in
  sval M E <= sval c e' ->
  exists m3 e3, 0 <= m3 /\ e' <= e3 /\ sval m3 e3 <= sval c e' /\
    binary_round_aux F32.prec F32.emax false M E loc_Exact =
      match m3 with
      | Z0 => S754_zero false
      | Zpos m => if e3 <=? F32.emax - F32.prec then S754_finite false m e3
                  else S754_infinity false
      | Zneg _ => S754_nan
      end.
Proof.
  intros HM HE e' Hle. unfold binary_round_aux.
  destruct (shr_fexp_exact M E) as (mrs & Heq & Hq & Hloc); [lia|].
  fold e' in Heq. rewrite Heq.
  set (k := Z.max 0 (fexp F32.prec F32.emax (Zdigits2 M + E) - E)) in *.
  assert (Hk : 0 <= k) by lia.
  assert (Hpk : 0 < 2 ^ k) by lia.
  assert (Hpe : 0 < 2 ^ (E + 300)) by lia.
  assert (HMc : M <= c * 2 ^ k).
  { unfold e' in Hle. rewrite (sval_shift c E k Hk HE) in Hle. unfold sval in Hle.
    apply (Z.mul_le_mono_pos_r _ _ (2 ^ (E + 300))); lia. }
  set (q := shr_m mrs) in *.
  pose proof (Z.div_mod M (2 ^ k) ltac:(lia)) as HdM.
  pose proof (Z.mod_pos_bound M (2 ^ k) Hpk) as Hrho.
  rewrite <- Hq in HdM.
  set (m2 := round_nearest_even q (loc_of_shr_record mrs)).
  assert (Hq0 : 0 <= q) by (rewrite Hq; apply Z.div_pos; lia).
  assert (Hm2 : 0 <= m2 <= c).
  { pose proof (round_nearest_even_bounds q (loc_of_shr_record mrs)) as Hb.
    fold m2 in Hb.
    destruct (Z.eq_dec (M mod 2 ^ k) 0) as [H0|H0].
    - apply Hloc in H0 as Hl. unfold m2. rewrite Hl. simpl.
      split; [lia|]. apply (Z.mul_le_mono_pos_r _ _ (2 ^ k)); lia.
    - assert (q < c).
      { apply (Z.mul_lt_mono_pos_r (2 ^ k)); lia. }
      lia. }
  destruct (shr_fexp_exact m2 e') as (mrs2 & Heq2 & Hm3 & _); [lia|].
  rewrite Heq2.
  set (k2 := Z.max 0 (fexp F32.prec F32.emax (Zdigits2 m2 + e') - e')) in *.
  assert (Hk2 : 0 <= k2) by lia.
  exists (shr_m mrs2), (e' + k2). split; [|split; [lia|split]].
  - rewrite Hm3. apply Z.div_pos; lia.
  - assert (He' : -300 <= e') by lia.
    rewrite (sval_shift _ e' k2 Hk2 He'). unfold sval.
    rewrite Hm3. pose proof (Z.mul_div_le m2 (2 ^ k2) ltac:(lia)).
    assert (0 < 2 ^ (e' + 300)) by lia.
    apply Z.mul_le_mono_pos_r; [assumption|]. lia.
  - reflexivity.
Qed.

(** A value already on the grid of its exponent is kept as it is. *)
Lemma round_aux_exact_id (m : positive) (e : Z) :
  fexp F32.prec F32.emax (Zdigits2 (Zpos m) + e) <= e -> e <= F32.emax - F32.prec ->
  binary_round_aux F32.prec F32.emax false (Zpos m) e loc_Exact = S754_finite false m e.
Proof.
  intros Hf He. unfold binary_round_aux.
  destruct (shr_fexp_exact (Zpos m) e) as (mrs & Heq & Hq & Hloc); [lia|].
  replace (Z.max 0 (fexp F32.prec F32.emax (Zdigits2 (Zpos m) + e) - e)) with 0
    in Heq, Hq, Hloc by lia.
  rewrite Heq. rewrite Z.add_0_r.
  assert (Hl : loc_of_shr_record mrs = loc_Exact) by (apply Hloc; apply Z.mod_1_r).
  rewrite Hl. simpl round_nearest_even. rewrite Hq, Z.div_1_r.
  destruct (shr_fexp_exact (Zpos m) e) as (mrs2 & Heq2 & Hq2 & _); [lia|].
  replace (Z.max 0 (fexp F32.prec F32.emax (Zdigits2 (Zpos m) + e) - e)) with 0
    in Heq2, Hq2 by lia.
  rewrite Heq2, Z.add_0_r, Hq2, Z.div_1_r.
  apply Z.leb_le in He. rewrite He. reflexivity.
Qed.

Lemma pos_iter_xO (p d : positive) : Zpos (Pos.iter xO p d) = Zpos p * 2 ^ Zpos d.
Proof.
  induction d as [|d IH] using Pos.peano_ind.
  - simpl. lia.
  - rewrite Pos.iter_succ, Pos2Z.inj_succ, Z.pow_succ_r by lia.
    change (Zpos (xO (Pos.iter xO p d))) with (2 * Zpos (Pos.iter xO p d)).
    rewrite IH. ring.
Qed.

Lemma fexp_f32 (x : Z) : fexp F32.prec F32.emax x = Z.max (x - 24) (-149).
Proof. reflexivity. Qed.

(** Integers below [2^24] convert to f32 exactly. *)
Lemma of_Z_repr (n : Z) : 0 < n < 2 ^ 24 ->
  exists mm em, F32.of_Z n = S754_finite false mm em /\
    Zpos mm = n * 2 ^ (- em) /\ -23 <= em <= 0.
Proof.
  intros Hn. destruct n as [|p|p]; try lia.
  pose proof (Zdigits2_bounds p) as Hd.
  set (d := Zdigits2 (Zpos p)) in *.
  assert (Hd1 : 1 <= d <= 24).
  { split; [unfold d; rewrite Zdigits2_log2; pose proof (Z.log2_nonneg (Zpos p)); lia|].
    destruct (Z.le_gt_cases d 24) as [|Hgt]; [assumption|].
    assert (2 ^ 24 <= 2 ^ (d - 1)) by (apply Z.pow_le_mono_r; lia). lia. }
  unfold F32.of_Z, binary_normalize, binary_round.
  change (Zpos (digits2_pos p)) with d.
  rewrite fexp_f32. replace (Z.max (d + 0 - 24) (-149)) with (d - 24) by lia.
  unfold shl_align. rewrite Z.sub_0_r.
  destruct (Z.eq_dec d 24) as [Hd24|Hd24].
  - rewrite Hd24. simpl (24 - 24).
    exists p, 0. split; [|split; [simpl; lia|lia]].
    apply round_aux_exact_id; [rewrite fexp_f32; fold d; lia|].
    unfold F32.emax, F32.prec; lia.
  - destruct (d - 24) as [|q|q] eqn:Eq; try lia.
    exists (Pos.iter xO p q), (Zneg q). split; [|split].
    + apply round_aux_exact_id; [|unfold F32.emax, F32.prec; lia].
      rewrite fexp_f32, Zdigits2_log2, pos_iter_xO, Z.log2_mul_pow2 by lia.
      unfold d in Eq. rewrite Zdigits2_log2 in Eq.
      rewrite <- Pos2Z.opp_pos in *. pose proof (Z.log2_nonneg (Zpos p)). lia.
    + rewrite pos_iter_xO. reflexivity.
    + lia.
Qed.

Lemma to_uint_of_Z (U n : Z) : 0 <= n < 2 ^ 24 -> n <= U -> F32.to_uint U (F32.of_Z n) = n.
Proof.
  intros Hn HU. destruct (Z.eq_dec n 0) as [->|Hn0]; [reflexivity|].
  destruct (of_Z_repr n ltac:(lia)) as (mm & em & Heq & Hm & He).
  rewrite Heq. simpl F32.to_uint.
  rewrite Z.shiftl_div_pow2 by lia. rewrite Hm, Z.div_mul by lia. lia.
Qed.

Lemma to_uint_nonneg (U : Z) (x : f32) : 0 <= U -> 0 <= F32.to_uint U x.
Proof.
  intros HU. destruct x as [[|]|[|]| |[|] m e]; simpl; try lia.
  apply Z.min_glb; [assumption|]. apply Z.shiftl_nonneg. lia.
Qed.

(** [x.floor() as uN] of a positive finite value at most an integer
    [B < 2^24] is at most [B]. *)
Lemma to_uint_floor_le (U : Z) (m : positive) (e B : Z) :
  -300 <= e -> 0 <= B < 2 ^ 24 -> 2 ^ 24 <= U -> sval (Zpos m) e <= sval B 0 ->
  F32.to_uint U (F32.floor (S754_finite false m e)) <= B.
Proof.
  intros He HB HU Hv. unfold sval in Hv. simpl Z.add in Hv.
  unfold F32.floor. destruct (0 <=? e) eqn:He0.
  - apply Z.leb_le in He0. simpl F32.to_uint. rewrite Z.shiftl_mul_pow2 by lia.
    assert (Zpos m * 2 ^ e <= B).
    { rewrite Z.pow_add_r in Hv by lia.
      apply (Z.mul_le_mono_pos_r _ _ (2 ^ 300)); [lia|]. lia. }
    lia.
  - apply Z.leb_gt in He0. simpl cond_Zopp.
    change (binary_normalize F32.prec F32.emax (Zpos m / 2 ^ (- e)) 0 false)
      with (F32.of_Z (Zpos m / 2 ^ (- e))).
    assert (Hk : Zpos m / 2 ^ (- e) <= B).
    { apply Z.div_le_upper_bound; [lia|].
      replace (2 ^ 300) with (2 ^ (- e) * 2 ^ (e + 300)) in Hv
        by (rewrite <- Z.pow_add_r by lia; f_equal; lia).
      apply (Z.mul_le_mono_pos_r _ _ (2 ^ (e + 300))); [lia|]. lia. }
    assert (0 <= Zpos m / 2 ^ (- e)) by (apply Z.div_pos; lia).
    rewrite to_uint_of_Z by lia. assumption.
Qed.

Lemma sval_mul (a b e1 e2 : Z) : -300 <= e1 -> -300 <= e2 -> -300 <= e1 + e2 ->
  sval (a * b) (e1 + e2) * 2 ^ 300 = sval a e1 * sval b e2.
Proof.
  intros. unfold sval.
  assert (Hp : 2 ^ (e1 + e2 + 300) * 2 ^ 300 = 2 ^ (e1 + 300) * 2 ^ (e2 + 300))
    by (rewrite <- !Z.pow_add_r by lia; f_equal; lia).
  transitivity (a * b * (2 ^ (e1 + e2 + 300) * 2 ^ 300)); [ring|].
  rewrite Hp. ring.
Qed.

(** The percentile index: multiplying a fraction at most [1.0] by an
    integer [m < 2^24] and flooring gives at most [m]. *)
Lemma index_le (f : f32) (m : Z) : fraction_ok f = true -> 0 <= m < 2 ^ 24 ->
  0 <= F32.to_uint usize_max (F32.floor (F32.mul f (F32.of_Z m))) <= m.
Proof.
  intros Hf Hm. split; [apply to_uint_nonneg; unfold usize_max; lia|].
  destruct (Z.eq_dec m 0) as [->|Hm0].
  { destruct f as [s|s| |s mf ef]; reflexivity. }
  destruct (of_Z_repr m ltac:(lia)) as (mm & em & Heq & Hmm & Hem). rewrite Heq.
  destruct f as [s|s| |[|] mf ef]; try discriminate; [simpl; lia|].
  unfold fraction_ok in Hf. apply andb_prop in Hf as [Hf He2]. apply andb_prop in Hf as [Hf He1].
  apply Z.leb_le in Hf, He1, He2.
  change (F32.mul (S754_finite false mf ef) (S754_finite false mm em))
    with (binary_round_aux F32.prec F32.emax false (Zpos (mf * mm)) (ef + em) loc_Exact).
  set (M := Zpos (mf * mm)). set (E := ef + em).
  assert (HME : sval M E <= sval m 0).
  { assert (H2 : sval M E * 2 ^ 300 = sval (Zpos mf) ef * sval (Zpos mm) em)
      by (unfold M, E; rewrite Pos2Z.inj_mul; apply sval_mul; lia).
    assert (Hmm' : sval (Zpos mm) em = m * 2 ^ 300).
    { unfold sval. rewrite Hmm, <- Z.mul_assoc, <- Z.pow_add_r by lia. f_equal; f_equal; lia. }
    assert (Hs1 : sval 1 0 = 2 ^ 300) by reflexivity.
    assert (0 < 2 ^ 300) by lia.
    assert (0 <= sval (Zpos mf) ef) by (unfold sval; pose proof (Z.pow_nonneg 2 (ef + 300)); lia).
    unfold sval at 2. simpl Z.add.
    apply (Z.mul_le_mono_pos_r _ _ (2 ^ 300)); [lia|]. rewrite H2, Hmm'.
    rewrite Hs1 in Hf. set (P := 2 ^ 300) in *. nia. }
  set (d := Zdigits2 M).
  assert (HdE : d + E <= 24).
  { pose proof (Zdigits2_bounds (mf * mm)) as Hd. fold M d in Hd.
    unfold sval in HME. simpl Z.add in HME.
    assert (2 ^ (d - 1) * 2 ^ (E + 300) < 2 ^ 24 * 2 ^ 300).
    { assert (0 < 2 ^ (E + 300)) by lia. nia. }
    assert (Hd1 : 1 <= d) by (unfold d, M; rewrite Zdigits2_log2;
                              pose proof (Z.log2_nonneg (Zpos (mf * mm))); lia).
    rewrite <- !Z.pow_add_r in H by lia.
    apply Z.pow_lt_mono_r_iff in H; lia. }
  set (e' := E + Z.max 0 (fexp F32.prec F32.emax (Zdigits2 M + E) - E)).
  assert (He' : E <= e' <= 0) by (unfold e'; rewrite fexp_f32; fold d; lia).
  destruct (round_aux_exact_le M E (m * 2 ^ (- e'))) as (m3 & e3 & Hm3 & He3 & Hv3 & Hr);
    [lia|lia| |].
  { fold e'. replace (sval (m * 2 ^ (- e')) e') with (sval m 0); [assumption|].
    unfold sval. rewrite <- Z.mul_assoc, <- Z.pow_add_r by lia. f_equal; f_equal; lia. }
  fold e' in Hr, Hv3. rewrite Hr.
  replace (sval (m * 2 ^ (- e')) e') with (sval m 0) in Hv3
    by (unfold sval; rewrite <- Z.mul_assoc, <- Z.pow_add_r by lia; f_equal; f_equal; lia).
  destruct m3 as [|p3|p3]; [simpl; lia| |lia].
  assert (He3' : e3 < 24).
  { unfold sval in Hv3. simpl Z.add in Hv3.
    assert (2 ^ (e3 + 300) < 2 ^ (24 + 300)).
    { rewrite Z.pow_add_r with (b := 24) by lia. nia. }
    apply Z.pow_lt_mono_r_iff in H; lia. }
  replace (e3 <=? F32.emax - F32.prec) with true
    by (symmetry; apply Z.leb_le; unfold F32.emax, F32.prec; lia).
  apply to_uint_floor_le; [lia|lia|unfold usize_max; lia|assumption].
Qed.

End F32Facts.

(** ** Canonical f32 values

    Rounding produces canonical values ([valid_binary]), and dividing a
    canonical value by [1.0] gives it back. *)
Module F32Canon.
Import F32Facts.


















End F32Canon.

(** ** The percentile index *)

Lemma percentile_fraction_ok (p : Z) : 0 <= p <= 100 ->
  fraction_ok (percentile_fraction p) = true.
Proof.
  intros Hp.
  assert (Hall : forallb (fun q => fraction_ok (percentile_fraction (Z.of_nat q)))
                   (seq 0 101) = true) by reflexivity.
  rewrite forallb_forall in Hall. rewrite <- (Z2Nat.id p) by lia.
  apply Hall. apply in_seq. lia.
Qed.

Lemma percentile_index_le (p n : Z) : 0 <= p <= 100 -> 1 <= n <= 2 ^ 24 ->
  0 <= percentile_index (percentile_fraction p) n <= n - 1.
Proof.
  intros Hp Hn. unfold percentile_index.
  apply F32Facts.index_le; [now apply percentile_fraction_ok | lia].
Qed.

Lemma length_insert_sorted (a : Z) (l : list Z) :
  length (insert_sorted a l) = S (length l).
Proof.
  induction l as [|b l IH]; simpl; [reflexivity|].
  destruct (a <=? b); simpl; [reflexivity|]. now rewrite IH.
Qed.

Lemma length_sort_unstable (l : list Z) : length (sort_unstable l) = length l.
Proof.
  induction l as [|a l IH]; simpl; [reflexivity|]. now rewrite length_insert_sorted, IH.
Qed.

Lemma sort_unstable_repeat (a : Z) (n : nat) :
  sort_unstable (repeat a n) = repeat a n.
Proof.
  induction n as [|n IH]; simpl; [reflexivity|]. rewrite IH.
  destruct n; simpl; [reflexivity|]. now rewrite Z.leb_refl.
Qed.

Lemma is_empty_nil (l : list Z) : is_empty l = true <-> l = [].
Proof. destruct l; simpl; split; congruence. Qed.

(** The lookup of a percentile in a sorted sequence of at most [2^24]
    offsets succeeds. *)
Lemma percentile_lookup_some (l : list Z) (p : Z) :
  (1 <= length l)%nat -> Z.of_nat (length l) <= 2 ^ 24 -> 0 <= p <= 100 ->
  exists v, nth_error (sort_unstable l)
    (Z.to_nat (percentile_index (percentile_fraction p)
                 (Z.of_nat (length (sort_unstable l))))) = Some v.
Proof.
  intros H1 H2 Hp. rewrite length_sort_unstable.
  pose proof (percentile_index_le p (Z.of_nat (length l)) Hp ltac:(lia)) as Hi.
  destruct (nth_error _ _) as [v|] eqn:E; [now exists v|].
  apply nth_error_None in E. rewrite length_sort_unstable in E. lia.
Qed.

Lemma select_axis_not_detection (oc : bool) (l : list Z) (f : f32) (e : Z) :
  select_axis oc l f e <> panic DetectionFailed.
Proof.
  unfold select_axis, select_edge, unwrap, checked, bind, panic, ret.
  destruct (nth_error _ _) as [raw|]; [|discriminate].
  destruct (u32_sub oc raw e); discriminate.
Qed.

Lemma select_axis_not_index (oc : bool) (l : list Z) (p e : Z) :
  (1 <= length l)%nat -> Z.of_nat (length l) <= 2 ^ 24 -> 0 <= p <= 100 ->
  select_axis oc l (percentile_fraction p) e <> panic IndexOutOfBounds.
Proof.
  intros H1 H2 Hp. destruct (percentile_lookup_some l p H1 H2 Hp) as [v Hv].
  unfold select_axis, select_edge. rewrite Hv. unfold unwrap, checked, bind, panic, ret.
  destruct (u32_sub oc v e); discriminate.
Qed.

Lemma entries_nil_iff {B} (P : B -> option nat -> Prop) (Q : B -> Prop)
    (ys : list B) (os : list (option nat)) :
  (forall y o, P y o -> (o = None <-> Q y)) -> Forall2 P ys os ->
  (flat_map entries os = [] <-> forall y, In y ys -> Q y).
Proof.
  intros HPQ Hf. induction Hf as [|y o ys os Hyo Hf IH]; simpl.
  - split; [intros _ y []|reflexivity].
  - specialize (HPQ y o Hyo). split.
    + intros Hn. apply app_eq_nil in Hn as [Ho Hr].
      assert (o = None) by (destruct o; [discriminate|reflexivity]).
      intros y' [<-|Hy']; [now apply HPQ|]. now apply IH.
    + intros Hall. rewrite (proj2 HPQ (Hall y (or_introl eq_refl))). simpl.
      apply IH. intros y' Hy'. apply Hall. now right.
Qed.

(** An offset sequence is empty exactly when every pixel is at least
    the threshold. *)
Lemma scan_x_nil (img : image) (t : Z) :
  scan_x img t = [] <->
  forall x y, (x < width img)%nat -> (y < height img)%nat -> t <= luma img x y.
Proof.
  destruct (scan_x_offsets img t) as (offs & Hf & ->).
  assert (HPQ : forall y o, row_offset_spec img t y o ->
                 (o = None <-> forall x, (x < width img)%nat -> t <= luma img x y)).
  { intros y [x|] Ho; simpl in Ho; split; try tauto; [discriminate|].
    intros H. destruct Ho as (Hx & Hl & _). specialize (H x Hx). lia. }
  rewrite (entries_nil_iff _ _ _ _ HPQ Hf). split.
  - intros H x y Hx Hy. apply H; [apply in_seq; lia|exact Hx].
  - intros H y Hy x Hx. apply in_seq in Hy. apply H; lia.
Qed.

Lemma scan_y_nil (img : image) (t : Z) :
  scan_y img t = [] <->
  forall x y, (x < width img)%nat -> (y < height img)%nat -> t <= luma img x y.
Proof.
  destruct (scan_y_offsets img t) as (offs & Hf & ->).
  assert (HPQ : forall x o, column_offset_spec img t x o ->
                 (o = None <-> forall y, (y < height img)%nat -> t <= luma img x y)).
  { intros x [y|] Ho; simpl in Ho; split; try tauto; [discriminate|].
    intros H. destruct Ho as (Hy & Hl & _). specialize (H y Hy). lia. }
  rewrite (entries_nil_iff _ _ _ _ HPQ Hf). split.
  - intros H x y Hx Hy. apply H; [apply in_seq; lia|exact Hy].
  - intros H x Hx y Hy. apply in_seq in Hx. apply H; lia.
Qed.

(** On [rect_image] a threshold of [250] separates the rectangle from
    the background. *)
Lemma rect_image_dark (W H w h x y : nat) :
  (x < W)%nat -> (y < H)%nat ->
  (luma (rect_image W H w h) x y < 250 <-> (x < w)%nat /\ (y < h)%nat).
Proof.
  intros _ _. simpl.
  destruct (Nat.ltb_spec x w), (Nat.ltb_spec y h); simpl; split; intros; lia.
Qed.

(** On [n] equal offsets, an index of at least [n] makes the lookup
    panic. *)
Lemma select_axis_repeat_past_end (oc : bool) (n : nat) (f : f32) (a e : Z) :
  (1 <= n)%nat -> Z.of_nat n <= percentile_index f (Z.of_nat n) ->
  select_axis oc (repeat a n) f e = panic IndexOutOfBounds.
Proof.
  intros H1 Hi. unfold select_axis. rewrite sort_unstable_repeat, repeat_length.
  unfold select_edge. rewrite (proj2 (nth_error_None _ _)) by (rewrite repeat_length; lia).
  reflexivity.
Qed.

(** On a column of dark pixels [1] wide and [H] high, percentile [0]
    looks up index [percentile_index 1.0 H] in [H] zero offsets. *)
Lemma dark_column_index (oc : bool) (H : nat) :
  (1 <= H)%nat -> Z.of_nat H <= percentile_index (percentile_fraction 0) (Z.of_nat H) ->
  process_image oc (uniform_config 250 0 0 None F32.one) (rect_image 1 H 1 H)
  = panic IndexOutOfBounds.
Proof.
  intros H1 Hi. unfold process_image. cbn [x_threshold y_threshold uniform_config].
  rewrite (scan_x_dark_rect (rect_image 1 H 1 H) 250 1 H) by
    first [simpl; lia | intros; apply rect_image_dark; assumption].
  rewrite (scan_y_dark_rect (rect_image 1 H 1 H) 250 1 H) by
    first [simpl; lia | intros; apply rect_image_dark; assumption].
  replace (is_empty (repeat (Z.of_nat (1 - 1)) H)) with false
    by (destruct H; [lia|reflexivity]).
  simpl (is_empty _). simpl orb. cbv iota.
  cbn [x_percentile_arg uniform_config].
  rewrite select_axis_repeat_past_end by assumption. reflexivity.
Qed.


Lemma length_scan_x (img : image) (t : Z) : (length (scan_x img t) <= height img)%nat.
Proof.
  destruct (scan_x_offsets img t) as (offs & Hf & ->).
  rewrite <- (length_seq (height img) 0), (Forall2_length Hf).
  clear Hf. induction offs as [|[o|] offs IH]; simpl; lia.
Qed.

Lemma length_scan_y (img : image) (t : Z) : (length (scan_y img t) <= width img)%nat.
Proof.
  destruct (scan_y_offsets img t) as (offs & Hf & ->).
  rewrite <- (length_seq (width img) 0), (Forall2_length Hf).
  clear Hf. induction offs as [|[o|] offs IH]; simpl; lia.
Qed.

(** ** The claims *)

(** C1: the margin is removed from the raw edge by a plain [u32]
    subtraction, and [.max(0)] on a [u32] changes nothing. On a 1x1 image
    whose pixel is dark, with extra margin 1 (raw edges 0), a build with
    overflow checks panics with "attempt to subtract with overflow" and a
    build without them wraps both edges to [2^32 - 1], where the saturating
    subtraction would give [max(0 - 1, 0) = 0]. *)
Theorem extra_margin_not_saturating :
  process_image true (uniform_config 250 100 1 None F32.one) (rect_image 1 1 1 1)
    = panic SubtractOverflow /\
  crop_and_dims
    (process_image false (uniform_config 250 100 1 None F32.one) (rect_image 1 1 1 1))
    = inr (2 ^ 32 - 1, 2 ^ 32 - 1, 2 ^ 32 - 1, 2 ^ 32 - 1) /\
  Z.max (0 - 1) 0 = 0.
Proof. vm_compute. repeat split. Qed.

(** C2 (counterexample): with downscale factor 1000 the 39x59 crop of a
    100x100 image gets target dimensions 0x0, and processing goes on to
    [resize_exact] with them: nothing rejects them. *)
Lemma zero_dims_not_rejected :
  process_image true (uniform_config 250 100 0 None (F32.of_Z 1000))
    (rect_image 100 100 40 60)
  = ret {| crop_x_edge := 39; crop_y_edge := 59; blurred_by := None;
           resize_width := 0; resize_height := 0 |}.
Proof. vm_compute. reflexivity. Qed.

(** C2 (amended): there is no check on the target dimensions: once both
    crop edges are selected, processing always goes on to [resize_exact],
    with exactly the computed target dimensions as its width and height,
    whatever they are, zero included. *)
Theorem resize_dims_unchecked (oc : bool) (cfg : config) (img : image) (xe ye : Z) :
  scan_x img (x_threshold cfg) <> [] -> scan_y img (y_threshold cfg) <> [] ->
  select_axis oc (scan_x img (x_threshold cfg))
    (percentile_fraction (x_percentile_arg cfg)) (x_extra cfg) = inr xe ->
  select_axis oc (scan_y img (y_threshold cfg))
    (percentile_fraction (y_percentile_arg cfg)) (y_extra cfg) = inr ye ->
  process_image oc cfg img =
  ret {| crop_x_edge := xe; crop_y_edge := ye; blurred_by := blur cfg;
         resize_width :=
           fst (target_dims (Z.of_nat (width img)) (Z.of_nat (height img)) xe ye
                  (downscale cfg));
         resize_height :=
           snd (target_dims (Z.of_nat (width img)) (Z.of_nat (height img)) xe ye
                  (downscale cfg)) |}.
Proof.
  intros Hnx Hny Hx Hy. unfold process_image.
  replace (is_empty (scan_x img (x_threshold cfg))) with false
    by (destruct (scan_x img (x_threshold cfg)); [congruence|reflexivity]).
  replace (is_empty (scan_y img (y_threshold cfg))) with false
    by (destruct (scan_y img (y_threshold cfg)); [congruence|reflexivity]).
  simpl orb. cbv iota. rewrite Hx, Hy. simpl bind.
  destruct (target_dims _ _ xe ye _) as [nw nh]. reflexivity.
Qed.

Lemma resize_dims_unchecked_witness :
  process_image true (uniform_config 250 100 0 None (F32.of_Z 1000))
    (rect_image 100 100 40 60)
  = ret {| crop_x_edge := 39; crop_y_edge := 59; blurred_by := None;
           resize_width := fst (target_dims 100 100 39 59 (F32.of_Z 1000));
           resize_height := snd (target_dims 100 100 39 59 (F32.of_Z 1000)) |}.
Proof.
  apply (resize_dims_unchecked true (uniform_config 250 100 0 None (F32.of_Z 1000))
           (rect_image 100 100 40 60) 39 59);
    vm_compute; first [discriminate | reflexivity].
Defined.




(** C4: the dependent side is not floored before the downscale. In the
    x-limited branch line 120 writes [x_rel_size * f_height.floor()]: the
    method call binds tighter than [*], so the floor applies to the
    height, already an integer, and not to the product. A 3x7 image
    cropped to 2x6 is x-limited ([2/3 < 6/7]); with downscale factor 1.5
    the code divides [2/3 * 7 = 4.67] by 1.5 and gets height 3, where the
    specified [floor(4.67) = 4] gives [floor(4 / 1.5) = 2]. The y-limited
    branch (line 122) has no floor at all: a 7x3 image cropped to 6x2
    gets width 3 instead of 2. *)
Theorem dependent_side_not_floored :
  crop_and_dims
    (process_image true (uniform_config 250 100 0 None one_and_a_half)
       (rect_image 3 7 3 7))
  = inr (2, 6, 1, 3) /\
  F32.ltb (F32.div (F32.of_Z 2) (F32.of_Z 3)) (F32.div (F32.of_Z 6) (F32.of_Z 7)) = true /\
  F32.floor (F32.of_Z 7) = F32.of_Z 7 /\
  target_dims 3 7 2 6 one_and_a_half = (1, 3) /\
  spec_target_dims 3 7 2 6 one_and_a_half = (1, 2) /\
  crop_and_dims
    (process_image true (uniform_config 250 100 0 None one_and_a_half)
       (rect_image 7 3 7 3))
  = inr (6, 2, 3, 1) /\
  spec_target_dims 7 3 6 2 one_and_a_half = (2, 1).
Proof. vm_compute. repeat split. Qed.

(** C5: for every grid and threshold, the x-axis offsets are, row by row
    for [y] in [0, height), the largest column of the row darker than the
    threshold, rows without such a pixel giving no entry; the y-axis
    offsets are the same for the columns. For a light grid with a solid
    dark rectangle [[0,w) x [0,h)] at the origin, the x-axis offsets are
    [h] copies of [w - 1] (rows [0..h]) and nothing for rows [h..height],
    and the y-axis offsets are [w] copies of [h - 1]. *)
Theorem edge_scanner_offsets (img : image) (t : Z) :
  (exists offs, Forall2 (row_offset_spec img t) (seq 0 (height img)) offs /\
                scan_x img t = flat_map entries offs) /\
  (exists offs, Forall2 (column_offset_spec img t) (seq 0 (width img)) offs /\
                scan_y img t = flat_map entries offs) /\
  (forall w h : nat, (1 <= w <= width img)%nat -> (1 <= h <= height img)%nat ->
     (forall x y, (x < width img)%nat -> (y < height img)%nat ->
        (luma img x y < t <-> (x < w)%nat /\ (y < h)%nat)) ->
     scan_x img t = repeat (Z.of_nat (w - 1)) h /\
     scan_y img t = repeat (Z.of_nat (h - 1)) w).
Proof.
  split; [apply scan_x_offsets|]. split; [apply scan_y_offsets|].
  intros w h Hw Hh Hd. split; [apply scan_x_dark_rect | apply scan_y_dark_rect]; assumption.
Qed.

Lemma edge_scanner_offsets_witness :
  scan_x (rect_image 5 4 2 3) 250 = [1; 1; 1] /\ scan_y (rect_image 5 4 2 3) 250 = [2; 2].
Proof.
  exact (proj2 (proj2 (edge_scanner_offsets (rect_image 5 4 2 3) 250)) 2%nat 3%nat
           ltac:(simpl; lia) ltac:(simpl; lia)
           (fun x y Hx Hy => rect_image_dark 5 4 2 3 x y Hx Hy)).
Defined.

(** C6: the selected edge is not monotone in the percentile fraction:
    on the offsets [[5; 0]] with extra margin 3, the fraction [0.0]
    (percentile 100) selects the raw edge 0, which the unsaturated
    subtraction wraps to [2^32 - 3] without overflow checks (and panics
    on with them), while the larger fraction [1.0] (percentile 0)
    selects [5 - 3 = 2]. *)
Theorem percentile_monotonicity_broken :
  percentile_fraction 100 = S754_zero false /\
  percentile_fraction 0 = F32.one /\
  select_axis false [5; 0] (percentile_fraction 100) 3 = ret (2 ^ 32 - 3) /\
  select_axis false [5; 0] (percentile_fraction 0) 3 = ret 2 /\
  select_axis true [5; 0] (percentile_fraction 100) 3 = panic SubtractOverflow.
Proof. vm_compute. repeat split. Qed.

(** C7 (counterexample): an image 1 pixel wide and [2^24 + 4] pixels
    high, all dark, has non-empty offset sequences, yet at percentile 0
    the x-axis index is [2^24 + 4] (the f32 product rounds [2^24 + 3] up),
    past the end of the sequence, and [unwrap] panics. *)
Lemma tall_dark_column_index_panic :
  process_image true (uniform_config 250 0 0 None F32.one)
    (rect_image 1 (Z.to_nat (2 ^ 24 + 4)) 1 (Z.to_nat (2 ^ 24 + 4)))
  = panic IndexOutOfBounds.
Proof.
  apply dark_column_index; [change 1%nat with (Z.to_nat 1); apply Z2Nat.inj_le; lia|].
  rewrite Z2Nat.id by lia.
  vm_compute. discriminate.
Qed.

(** C7 (amended): processing stops with the detection error exactly when,
    on one axis, every pixel is at least that axis's threshold (every
    line is background, so the offset sequence is empty). When both
    sequences are non-empty, the percentiles lie in [0, 100] and the image
    is at most [2^24] pixels wide and high, the percentile lookups do not
    panic. *)
Theorem detection_failure_iff (oc : bool) (cfg : config) (img : image) :
  (process_image oc cfg img = panic DetectionFailed <->
   (forall x y, (x < width img)%nat -> (y < height img)%nat ->
      x_threshold cfg <= luma img x y) \/
   (forall x y, (x < width img)%nat -> (y < height img)%nat ->
      y_threshold cfg <= luma img x y)) /\
  (0 <= x_percentile_arg cfg <= 100 -> 0 <= y_percentile_arg cfg <= 100 ->
   Z.of_nat (width img) <= 2 ^ 24 -> Z.of_nat (height img) <= 2 ^ 24 ->
   scan_x img (x_threshold cfg) <> [] -> scan_y img (y_threshold cfg) <> [] ->
   process_image oc cfg img <> panic IndexOutOfBounds).
Proof.
  rewrite <- scan_x_nil, <- scan_y_nil. split.
  - unfold process_image. destruct (is_empty _ || is_empty _) eqn:E.
    + apply orb_true_iff in E. rewrite !is_empty_nil in E. tauto.
    + apply orb_false_iff in E. rewrite <- !is_empty_nil. rewrite (proj1 E), (proj2 E).
      split; [|intros [H|H]; discriminate].
      destruct (select_axis oc (scan_x img (x_threshold cfg)) _ _) as [r|xe] eqn:Ex;
        simpl.
      { intros H. injection H as ->. exfalso. eapply select_axis_not_detection.
        exact Ex. }
      destruct (select_axis oc (scan_y img (y_threshold cfg)) _ _) as [r|ye] eqn:Ey;
        simpl.
      { intros H. injection H as ->. exfalso. eapply select_axis_not_detection.
        exact Ey. }
      destruct (target_dims _ _ _ _ _); discriminate.
  - intros Hpx Hpy Hw Hh Hx Hy. pose proof (length_scan_x img (x_threshold cfg)) as Lx.
    pose proof (length_scan_y img (y_threshold cfg)) as Ly.
    unfold process_image.
    replace (is_empty (scan_x img (x_threshold cfg))) with false
      by (destruct (scan_x img (x_threshold cfg)); [congruence|reflexivity]).
    replace (is_empty (scan_y img (y_threshold cfg))) with false
      by (destruct (scan_y img (y_threshold cfg)); [congruence|reflexivity]).
    simpl orb. cbv iota.
    destruct (select_axis oc (scan_x img (x_threshold cfg)) _ _) as [r|xe] eqn:Ex; simpl.
    { intros Hr. injection Hr as ->. revert Ex. apply select_axis_not_index; [|lia|lia].
      destruct (scan_x img (x_threshold cfg)); [congruence|simpl; lia]. }
    destruct (select_axis oc (scan_y img (y_threshold cfg)) _ _) as [r|ye] eqn:Ey; simpl.
    { intros Hr. injection Hr as ->. revert Ey. apply select_axis_not_index; [|lia|lia].
      destruct (scan_y img (y_threshold cfg)); [congruence|simpl; lia]. }
    destruct (target_dims _ _ _ _ _); discriminate.
Qed.

Lemma detection_failure_iff_witness :
  process_image true (uniform_config 250 100 0 None F32.one) (rect_image 5 4 2 3)
  <> panic IndexOutOfBounds.
Proof.
  apply (proj2 (detection_failure_iff true (uniform_config 250 100 0 None F32.one)
                  (rect_image 5 4 2 3)));
    simpl; try lia; vm_compute; discriminate.
Defined.

(** C8: the crop rectangle can exceed the image: on a 1x1 image whose
    pixel is dark, with extra margin 1 and a build without overflow
    checks, the wrapped subtraction gives crop edges [2^32 - 1], larger
    than the width and the height 1 (with overflow checks the same input
    panics instead, see the extra margin above). *)
Theorem crop_edge_exceeds_image :
  match process_image false (uniform_config 250 100 1 None F32.one) (rect_image 1 1 1 1)
  with
  | inr p => Z.of_nat (width (rect_image 1 1 1 1)) < crop_x_edge p /\
             Z.of_nat (height (rect_image 1 1 1 1)) < crop_y_edge p
  | inl _ => False
  end.
Proof. vm_compute. split; reflexivity. Qed.

(** C9: the [--blur] argument has no effect on the outcome of processing
    apart from the blur itself: the panic, or the crop rectangle and the
    target dimensions, are the same for every blur setting. *)
Theorem blur_independent (oc : bool) (cfg : config) (img : image) (b : option f32) :
  crop_and_dims (process_image oc (with_blur cfg b) img) =
  crop_and_dims (process_image oc cfg img).
Proof.
  unfold process_image, with_blur.
  cbn [x_threshold y_threshold x_percentile_arg y_percentile_arg x_extra y_extra
       downscale blur].
  destruct (is_empty _ || is_empty _); [reflexivity|].
  destruct (select_axis oc (scan_x img (x_threshold cfg)) _ _) as [r|xe]; simpl;
    [reflexivity|].
  destruct (select_axis oc (scan_y img (y_threshold cfg)) _ _) as [r|ye]; simpl;
    [reflexivity|].
  destruct (target_dims _ _ _ _ _); reflexivity.
Qed.

(** C10 (counterexample): for a sequence of [n = 2^24 + 4] offsets at
    percentile 0 the f32 index is [fl(1.0 * fl(2^24 + 3)) = 2^24 + 4],
    beyond [n - 1]; the lookup in the sorted sequence (here [n] zeros)
    then panics. *)
Lemma percentile_index_past_end :
  percentile_index (percentile_fraction 0) (2 ^ 24 + 4) = 2 ^ 24 + 4 /\
  ~ (percentile_index (percentile_fraction 0) (2 ^ 24 + 4) <= 2 ^ 24 + 4 - 1) /\
  select_axis true (repeat 0 (Z.to_nat (2 ^ 24 + 4))) (percentile_fraction 0) 0
  = panic IndexOutOfBounds.
Proof.
  assert (E : percentile_index (percentile_fraction 0) (2 ^ 24 + 4) = 2 ^ 24 + 4)
    by (vm_compute; reflexivity).
  split; [exact E|]. split; [rewrite E; lia|].
  apply select_axis_repeat_past_end.
  - change 1%nat with (Z.to_nat 1). apply Z2Nat.inj_le; lia.
  - rewrite Z2Nat.id, E; lia.
Qed.

(** C10 (amended): for a non-empty offset sequence of length [n] at most
    [2^24] and a percentile [p] in [0, 100], the f32 index
    [floor((1 - p/100) * (n - 1))] lies in [[0, n - 1]] and the lookup
    into the sorted sequence succeeds. *)
Theorem percentile_lookup_in_bounds (l : list Z) (p : Z) :
  l <> [] -> Z.of_nat (length l) <= 2 ^ 24 -> 0 <= p <= 100 ->
  0 <= percentile_index (percentile_fraction p) (Z.of_nat (length l))
    <= Z.of_nat (length l) - 1 /\
  exists v, nth_error (sort_unstable l)
    (Z.to_nat (percentile_index (percentile_fraction p)
                 (Z.of_nat (length (sort_unstable l))))) = Some v.
Proof.
  intros Hl Hn Hp.
  assert (H1 : (1 <= length l)%nat) by (destruct l; [congruence|simpl; lia]).
  split; [apply percentile_index_le; lia|].
  now apply percentile_lookup_some.
Qed.

Lemma percentile_lookup_in_bounds_witness :
  0 <= percentile_index (percentile_fraction 50) 3 <= 2 /\
  exists v, nth_error (sort_unstable [3; 1; 2])
    (Z.to_nat (percentile_index (percentile_fraction 50)
                 (Z.of_nat (length (sort_unstable [3; 1; 2]))))) = Some v.
Proof.
  exact (percentile_lookup_in_bounds [3; 1; 2] 50 ltac:(discriminate)
           ltac:(simpl; lia) ltac:(lia)).
Defined.

(** ** Further properties of the program *)

(** *** Helpers *)

Lemma in_insert_sorted (a x : Z) (l : list Z) :
  In x (insert_sorted a l) <-> a = x \/ In x l.
Proof.
  induction l as [|b l IH]; simpl; [tauto|].
  destruct (a <=? b); simpl; [tauto|]. rewrite IH. tauto.
Qed.

Lemma in_sort_unstable (x : Z) (l : list Z) : In x (sort_unstable l) <-> In x l.
Proof.
  induction l as [|a l IH]; simpl; [tauto|]. rewrite in_insert_sorted, IH. tauto.
Qed.

Lemma Forall2_in_r {B C} (P : B -> C -> Prop) (l1 : list B) (l2 : list C) (c : C) :
  Forall2 P l1 l2 -> In c l2 -> exists b, In b l1 /\ P b c.
Proof.
  intros Hf. induction Hf as [|b c' l1 l2 Hbc Hf IH]; simpl; [tauto|].
  intros [<-|Hc]; [eauto|]. destruct (IH Hc) as (b' & ? & ?). eauto.
Qed.

(** Every x-axis offset is a column of the image, every y-axis offset a
    row. *)
Lemma scan_x_lt (img : image) (t v : Z) :
  In v (scan_x img t) -> 0 <= v < Z.of_nat (width img).
Proof.
  destruct (scan_x_offsets img t) as (offs & Hf & ->). intros Hv.
  apply in_flat_map in Hv as (o & Ho & Hv).
  destruct (Forall2_in_r _ _ _ _ Hf Ho) as (y & _ & Hs).
  destruct o as [x|]; [|destruct Hv]. destruct Hv as [<-|[]].
  destruct Hs as (Hx & _). lia.
Qed.

Lemma scan_y_lt (img : image) (t v : Z) :
  In v (scan_y img t) -> 0 <= v < Z.of_nat (height img).
Proof.
  destruct (scan_y_offsets img t) as (offs & Hf & ->). intros Hv.
  apply in_flat_map in Hv as (o & Ho & Hv).
  destruct (Forall2_in_r _ _ _ _ Hf Ho) as (x & _ & Hs).
  destruct o as [y|]; [|destruct Hv]. destruct Hv as [<-|[]].
  destruct Hs as (Hy & _). lia.
Qed.

Lemma rev_find_ext (p q : nat -> bool) (n : nat) :
  (forall j, (j < n)%nat -> p j = q j) -> rev_find p n = rev_find q n.
Proof.
  induction n as [|n IH]; simpl; intros H; [reflexivity|].
  rewrite H by lia. destruct (q n); [reflexivity|]. apply IH. intros; apply H; lia.
Qed.

Lemma flat_map_ext_in {B C} (f g : B -> list C) (l : list B) :
  (forall b, In b l -> f b = g b) -> flat_map f l = flat_map g l.
Proof.
  induction l as [|b l IH]; simpl; intros H; [reflexivity|].
  rewrite H by (left; reflexivity). f_equal. apply IH. intros; apply H; now right.
Qed.

Lemma scan_x_same_pixels (img1 img2 : image) (t : Z) :
  same_pixels img1 img2 -> scan_x img1 t = scan_x img2 t.
Proof.
  intros (Hw & Hh & Hl). unfold scan_x. rewrite !fold_push_found, <- Hw, <- Hh.
  simpl. apply flat_map_ext_in. intros y Hy. apply in_seq in Hy. f_equal.
  apply rev_find_ext. intros x Hx. now rewrite Hl by lia.
Qed.

Lemma scan_y_same_pixels (img1 img2 : image) (t : Z) :
  same_pixels img1 img2 -> scan_y img1 t = scan_y img2 t.
Proof.
  intros (Hw & Hh & Hl). unfold scan_y. rewrite !fold_push_found, <- Hw, <- Hh.
  simpl. apply flat_map_ext_in. intros x Hx. apply in_seq in Hx. f_equal.
  apply rev_find_ext. intros y Hy. now rewrite Hl by lia.
Qed.

(** The detection error is raised exactly when one offset sequence is
    empty. *)
Lemma process_image_detection (oc : bool) (cfg : config) (img : image) :
  process_image oc cfg img = panic DetectionFailed <->
  scan_x img (x_threshold cfg) = [] \/ scan_y img (y_threshold cfg) = [].
Proof.
  unfold process_image. destruct (is_empty _ || is_empty _) eqn:E.
  - apply orb_true_iff in E. rewrite !is_empty_nil in E. tauto.
  - apply orb_false_iff in E. rewrite <- !is_empty_nil. rewrite (proj1 E), (proj2 E).
    split; [|intros [H|H]; discriminate].
    destruct (select_axis oc (scan_x img (x_threshold cfg)) _ _) as [r|xe] eqn:Ex;
      simpl.
    { intros H. injection H as ->. exfalso. eapply select_axis_not_detection.
      exact Ex. }
    destruct (select_axis oc (scan_y img (y_threshold cfg)) _ _) as [r|ye] eqn:Ey;
      simpl.
    { intros H. injection H as ->. exfalso. eapply select_axis_not_detection.
      exact Ey. }
    destruct (target_dims _ _ _ _ _); discriminate.
Qed.

(** A check of a boolean property on every integer of [[0, n)]. *)
Lemma range_check (f : Z -> bool) (n : nat) :
  forallb (fun k => f (Z.of_nat k)) (seq 0 n) = true ->
  forall z, 0 <= z < Z.of_nat n -> f z = true.
Proof.
  intros H z Hz. rewrite forallb_forall in H. specialize (H (Z.to_nat z)).
  rewrite Z2Nat.id in H by lia. apply H, in_seq. lia.
Qed.

Lemma fraction_in_unit_all (p : Z) : 0 <= p <= 100 -> fraction_in_unit p = true.
Proof.
  intros Hp. apply (range_check fraction_in_unit 101); [vm_compute; reflexivity|lia].
Qed.

Lemma in_range_iff (lo hi v : Z) : in_range lo hi v = true <-> lo <= v <= hi.
Proof. unfold in_range. rewrite andb_true_iff, !Z.leb_le. tauto. Qed.

Lemma unwrap_or_in_range (lo hi d : Z) (o : option Z) :
  opt_in_range lo hi o = true -> in_range lo hi d = true ->
  lo <= unwrap_or o d <= hi.
Proof.
  destruct o as [v|]; simpl; intros H1 H2; apply in_range_iff; assumption.
Qed.

(** Signs of f32 results: every operation below keeps the sign rule of
    IEEE-754 (or gives NaN). *)
Lemma round_aux_sign (sx : bool) (M E : Z) (l : location) :
  sign_or_nan sx (binary_round_aux F32.prec F32.emax sx M E l) = true.
Proof.
  unfold binary_round_aux.
  destruct (shr_fexp _ _ M E l) as [r1 e1].
  destruct (shr_fexp _ _ _ e1 loc_Exact) as [r2 e2].
  destruct (shr_m r2); simpl; try apply eqb_reflx; [|reflexivity].
  destruct (e2 <=? _); apply eqb_reflx.
Qed.

Lemma of_Z_sign (n : Z) : 0 <= n -> sign_or_nan false (F32.of_Z n) = true.
Proof.
  intros Hn. unfold F32.of_Z, binary_normalize.
  destruct n as [|m|m]; [reflexivity| |lia].
  unfold binary_round. destruct (shl_align _ _ _) as [mz ez]. apply round_aux_sign.
Qed.

Ltac sign_cases :=
  repeat match goal with
  | H : sign_or_nan _ ?x = true |- _ =>
      destruct x; simpl in H; try apply eqb_prop in H; subst; clear H
  end.

Lemma mul_sign (a b : bool) (x y : f32) :
  sign_or_nan a x = true -> sign_or_nan b y = true ->
  sign_or_nan (xorb a b) (F32.mul x y) = true.
Proof.
  intros Hx Hy. unfold F32.mul. sign_cases; simpl; try apply eqb_reflx; try reflexivity.
  apply round_aux_sign.
Qed.

Lemma div_sign (a b : bool) (x y : f32) :
  sign_or_nan a x = true -> sign_or_nan b y = true ->
  sign_or_nan (xorb a b) (F32.div x y) = true.
Proof.
  intros Hx Hy. unfold F32.div. sign_cases; simpl; try apply eqb_reflx; try reflexivity.
  destruct (SFdiv_core_binary _ _ _ _ _ _) as [[mz ez] lz]. apply round_aux_sign.
Qed.

Lemma floor_sign (s : bool) (x : f32) :
  sign_or_nan s x = true -> sign_or_nan s (F32.floor x) = true.
Proof.
  intros Hx. destruct x as [s'|s'| |s' m e]; try exact Hx. simpl in Hx.
  apply eqb_prop in Hx. subst s'. unfold F32.floor.
  destruct (0 <=? e) eqn:He; [simpl; apply eqb_reflx|].
  assert (Hp : 0 < 2 ^ (- e)) by (apply Z.pow_pos_nonneg; lia).
  unfold binary_normalize.
  destruct (Z.div (cond_Zopp s (Zpos m)) (2 ^ (- e))) as [|q|q] eqn:Eq.
  - simpl. apply eqb_reflx.
  - destruct s.
    + exfalso. simpl in Eq.
      assert (Z.div (- Zpos m) (2 ^ (- e)) < 0) by (apply Z.div_lt_upper_bound; lia).
      lia.
    + unfold binary_round. destruct (shl_align _ _ _) as [mz ez]. apply round_aux_sign.
  - destruct s.
    + unfold binary_round. destruct (shl_align _ _ _) as [mz ez]. apply round_aux_sign.
    + exfalso. simpl in Eq.
      assert (0 <= Z.div (Zpos m) (2 ^ (- e))) by (apply Z.div_pos; lia). lia.
Qed.

Lemma to_uint_negative (U : Z) (x : f32) :
  sign_or_nan true x = true -> F32.to_uint U x = 0.
Proof. intros Hx. sign_cases; reflexivity. Qed.

(** Dividing a value of sign [+] (or NaN) by a collapsing factor and
    converting gives [0]. *)
Lemma to_uint_div_collapsing (U : Z) (x d : f32) :
  sign_or_nan false x = true -> collapsing_factor d = true ->
  F32.to_uint U (F32.floor (F32.div x d)) = 0.
Proof.
  intros Hx Hd. destruct d as [s|s| |s m e]; simpl in Hd.
  - subst s. apply to_uint_negative, floor_sign. apply (div_sign false true); auto.
  - destruct x; reflexivity.
  - destruct x; reflexivity.
  - subst s. apply to_uint_negative, floor_sign. apply (div_sign false true); auto.
Qed.

Lemma new_dims_sign (w h x_edge y_edge : Z) :
  0 <= w -> 0 <= h -> 0 <= x_edge -> 0 <= y_edge ->
  sign_or_nan false (fst (new_dims w h x_edge y_edge)) = true /\
  sign_or_nan false (snd (new_dims w h x_edge y_edge)) = true.
Proof.
  intros Hw Hh Hx Hy. unfold new_dims.
  pose proof (of_Z_sign w Hw). pose proof (of_Z_sign h Hh).
  pose proof (of_Z_sign x_edge Hx). pose proof (of_Z_sign y_edge Hy).
  assert (Rx : sign_or_nan false (F32.div (F32.of_Z x_edge) (F32.of_Z w)) = true)
    by (apply (div_sign false false); assumption).
  assert (Ry : sign_or_nan false (F32.div (F32.of_Z y_edge) (F32.of_Z h)) = true)
    by (apply (div_sign false false); assumption).
  destruct (F32.ltb _ _); simpl; split; try assumption.
  - apply (mul_sign false false); [assumption|]. now apply floor_sign.
  - apply (mul_sign false false); assumption.
Qed.

Lemma select_axis_nonneg (oc : bool) (l : list Z) (f : f32) (e v : Z) :
  select_axis oc l f e = inr v -> 0 <= v.
Proof.
  unfold select_axis, select_edge, unwrap, checked, bind, ret, panic.
  destruct (nth_error _ _) as [raw|]; [|discriminate].
  destruct (u32_sub oc raw e) as [d|]; [|discriminate].
  intros H. injection H as <-. lia.
Qed.

(** With overflow checks, a selected edge is an offset of the sequence
    minus the extra margin, which is at most that offset. *)
Lemma select_axis_checked (l : list Z) (f : f32) (e v : Z) :
  select_axis true l f e = inr v -> 0 <= e ->
  (forall r, In r l -> 0 <= r < 2 ^ 32) ->
  exists raw, In raw l /\ e <= raw /\ v = raw - e.
Proof.
  intros H He Hl. revert H.
  unfold select_axis, select_edge, unwrap, checked, bind, ret, panic.
  destruct (nth_error _ _) as [raw|] eqn:En; [|discriminate].
  apply nth_error_In, (proj1 (in_sort_unstable _ _)) in En. specialize (Hl raw En).
  unfold u32_sub. simpl. destruct (raw <? e) eqn:Ee; [discriminate|].
  apply Z.ltb_ge in Ee. intros H. injection H as <-.
  exists raw. rewrite Z.mod_small by lia. repeat split; [assumption|lia|lia].
Qed.

(** Without overflow checks, the subtraction wraps when the extra margin
    exceeds the offset. *)
Lemma select_axis_wrapping (l : list Z) (f : f32) (e v : Z) :
  select_axis false l f e = inr v -> 0 <= e < 2 ^ 32 ->
  (forall r, In r l -> 0 <= r < 2 ^ 32) ->
  exists raw, In raw l /\ v = (if e <=? raw then raw - e else raw - e + 2 ^ 32).
Proof.
  intros H He Hl. revert H.
  unfold select_axis, select_edge, unwrap, checked, bind, ret, panic.
  destruct (nth_error _ _) as [raw|] eqn:En; [|discriminate].
  apply nth_error_In, (proj1 (in_sort_unstable _ _)) in En. specialize (Hl raw En).
  unfold u32_sub. cbn [andb]. intros H. injection H as <-. exists raw. split; [assumption|].
  change (Z.pow_pos 2 32) with (2 ^ 32). destruct (Z.leb_spec e raw).
  - rewrite Z.mod_small by lia. lia.
  - rewrite <- (Z.mod_add (raw - e) 1 (2 ^ 32)) by lia.
    rewrite Z.mod_small by lia. lia.
Qed.

(** On [n] equal offsets (at most [2^24]) and a percentile in
    [[0, 100]], the selected edge with no extra margin is that offset. *)
Lemma select_axis_repeat (oc : bool) (n : nat) (p a : Z) :
  (1 <= n)%nat -> Z.of_nat n <= 2 ^ 24 -> 0 <= p <= 100 -> 0 <= a < 2 ^ 32 ->
  select_axis oc (repeat a n) (percentile_fraction p) 0 = inr a.
Proof.
  intros H1 H2 Hp Ha.
  assert (L1 : (1 <= length (repeat a n))%nat) by (rewrite repeat_length; lia).
  assert (L2 : Z.of_nat (length (repeat a n)) <= 2 ^ 24) by (rewrite repeat_length; lia).
  destruct (percentile_lookup_some (repeat a n) p L1 L2 Hp) as [v Hv].
  assert (v = a) as ->.
  { apply nth_error_In, (proj1 (in_sort_unstable _ _)), repeat_spec in Hv. exact Hv. }
  unfold select_axis, select_edge. rewrite Hv.
  unfold unwrap, checked, bind, ret, u32_sub.
  replace (a <? 0) with false by (symmetry; apply Z.ltb_ge; lia).
  rewrite andb_false_r, Z.sub_0_r, Z.mod_small by lia. f_equal. lia.
Qed.

(** What a successful run of [process_image] returns. *)
Lemma process_image_inv (oc : bool) (cfg : config) (img : image) (p : processed) :
  process_image oc cfg img = inr p ->
  scan_x img (x_threshold cfg) <> [] /\ scan_y img (y_threshold cfg) <> [] /\
  select_axis oc (scan_x img (x_threshold cfg))
    (percentile_fraction (x_percentile_arg cfg)) (x_extra cfg) = inr (crop_x_edge p) /\
  select_axis oc (scan_y img (y_threshold cfg))
    (percentile_fraction (y_percentile_arg cfg)) (y_extra cfg) = inr (crop_y_edge p) /\
  (resize_width p, resize_height p) =
    target_dims (Z.of_nat (width img)) (Z.of_nat (height img))
      (crop_x_edge p) (crop_y_edge p) (downscale cfg) /\
  blurred_by p = blur cfg.
Proof.
  unfold process_image. destruct (is_empty _ || is_empty _) eqn:E; [discriminate|].
  apply orb_false_iff in E. destruct E as [E1 E2].
  destruct (select_axis oc (scan_x img (x_threshold cfg)) _ _) as [r|xe] eqn:Ex;
    simpl; [discriminate|].
  destruct (select_axis oc (scan_y img (y_threshold cfg)) _ _) as [r|ye] eqn:Ey;
    simpl; [discriminate|].
  destruct (target_dims _ _ _ _ _) as [nw nh] eqn:Et. intros H. injection H as <-.
  simpl. split; [intros Hc; rewrite Hc in E1; discriminate|].
  split; [intros Hc; rewrite Hc in E2; discriminate|].
  split; [reflexivity|split; [reflexivity|split; [symmetry; assumption|reflexivity]]].
Qed.

(** With percentiles in [[0, 100]] and an image at most [2^24] pixels
    wide and high, [process_image] never panics on the lookup. *)
Lemma process_image_not_index (oc : bool) (cfg : config) (img : image) :
  0 <= x_percentile_arg cfg <= 100 -> 0 <= y_percentile_arg cfg <= 100 ->
  Z.of_nat (width img) <= 2 ^ 24 -> Z.of_nat (height img) <= 2 ^ 24 ->
  process_image oc cfg img <> panic IndexOutOfBounds.
Proof.
  intros Hpx Hpy Hw Hh. pose proof (length_scan_x img (x_threshold cfg)) as Lx.
  pose proof (length_scan_y img (y_threshold cfg)) as Ly.
  unfold process_image. destruct (is_empty _ || is_empty _) eqn:E;
    [unfold panic; discriminate|].
  apply orb_false_iff in E. destruct E as [Ex0 Ey0].
  destruct (select_axis oc (scan_x img (x_threshold cfg)) _ _) as [r|xe] eqn:Ex; simpl.
  { intros Hr. injection Hr as ->. revert Ex. apply select_axis_not_index; [|lia|lia].
    destruct (scan_x img (x_threshold cfg)); [discriminate|simpl; lia]. }
  destruct (select_axis oc (scan_y img (y_threshold cfg)) _ _) as [r|ye] eqn:Ey; simpl.
  { intros Hr. injection Hr as ->. revert Ey. apply select_axis_not_index; [|lia|lia].
    destruct (scan_y img (y_threshold cfg)); [discriminate|simpl; lia]. }
  destruct (target_dims _ _ _ _ _); discriminate.
Qed.

Lemma process_sources_spec (oc : bool) (cfg : config) (env : environment) (out : path)
    (srcs : list path) (saved : list (path * processed)) (st : exit_status) :
  process_sources oc cfg env out srcs = (saved, st) ->
  (length saved <= length srcs)%nat /\
  Forall2 (saved_as oc cfg env out) (firstn (length saved) srcs) saved /\
  (st = ExitOk <-> length saved = length srcs).
Proof.
  revert saved st. induction srcs as [|src rest IH]; intros saved st H; simpl in H.
  - injection H as <- <-. simpl. split; [lia|split; [constructor|tauto]].
  - assert (Fail : forall st', st' <> ExitOk -> ([], st') = (saved, st) ->
             (length saved <= length (src :: rest))%nat /\
             Forall2 (saved_as oc cfg env out) (firstn (length saved) (src :: rest)) saved /\
             (st = ExitOk <-> length saved = length (src :: rest))).
    { intros st' Hst' Hs. injection Hs as <- <-. simpl.
      split; [lia|split; [constructor|split; intros Hc; [congruence|discriminate]]]. }
    destruct (open_decode env src) as [[img|]|] eqn:Eo;
      [|(refine (Fail _ _ H); discriminate)|(refine (Fail _ _ H); discriminate)].
    destruct (file_name src) as [os|] eqn:En; [|(refine (Fail _ _ H); discriminate)].
    destruct (to_str env os) as [name|] eqn:Et; [|(refine (Fail _ _ H); discriminate)].
    unfold to_str in Et. destruct (valid_unicode env os) eqn:Ev; [|discriminate].
    injection Et as <-.
    destruct (process_image oc cfg img) as [r|res] eqn:Ep;
      [(refine (Fail _ _ H); discriminate)|].
    destruct (save_ok env (join out os) res) eqn:Es; [|(refine (Fail _ _ H); discriminate)].
    destruct (process_sources oc cfg env out rest) as [saved' st'] eqn:Er.
    injection H as <- <-. destruct (IH saved' st' eq_refl) as (IH1 & IH2 & IH3).
    simpl. split; [lia|split].
    + constructor; [|exact IH2]. exists img, os. simpl. repeat split; assumption.
    + rewrite IH3. split; intros; lia.
Qed.

Lemma process_sources_panic (oc : bool) (cfg : config) (env : environment) (out : path)
    (srcs : list path) (saved : list (path * processed)) (r : panic_reason) :
  process_sources oc cfg env out srcs = (saved, ExitPanic (ProcessingPanic r)) ->
  exists src img, In src srcs /\ open_decode env src = Some (Some img) /\
                  process_image oc cfg img = inl r.
Proof.
  revert saved. induction srcs as [|src rest IH]; intros saved H; simpl in H;
    [discriminate|].
  destruct (open_decode env src) as [[img|]|] eqn:Eo; [|discriminate|discriminate].
  destruct (file_name src) as [os|]; [|discriminate].
  destruct (to_str env os) as [name|]; [|discriminate].
  destruct (process_image oc cfg img) as [r'|res] eqn:Ep.
  - injection H as _ <-. exists src, img. simpl. tauto.
  - destruct (save_ok env (join out name) res); [|discriminate].
    destruct (process_sources oc cfg env out rest) as [saved' st'] eqn:Er.
    injection H as _ ->. destruct (IH saved' eq_refl) as (src' & img' & Hi & Ho & Hp).
    exists src', img'. simpl. tauto.
Qed.

(** With no extra margin, selecting an edge among non-negative offsets
    never overflows. *)
Lemma select_axis_zero_extra (oc : bool) (l : list Z) (f : f32) :
  (forall r, In r l -> 0 <= r) -> select_axis oc l f 0 <> panic SubtractOverflow.
Proof.
  intros Hl. unfold select_axis, select_edge, unwrap, checked, bind, ret, panic.
  destruct (nth_error _ _) as [raw|] eqn:En; [|discriminate].
  apply nth_error_In, (proj1 (in_sort_unstable _ _)), Hl in En.
  unfold u32_sub. replace (raw <? 0) with false by (symmetry; apply Z.ltb_ge; lia).
  rewrite andb_false_r. discriminate.
Qed.

(** *** Properties *)

(** X1: for command-line arguments in the ranges the parser enforces,
    both resolved percentile fractions [1.0 - p as f32 / 100.0] (the
    per-axis percentile if given, the shared one otherwise) lie between
    [+0.0] and [1.0]. *)
Theorem resolved_fractions_in_unit (a : cli_args) :
  args_in_range a = true ->
  SFleb (S754_zero false) (percentile_fraction (x_percentile_arg (resolve_config a))) = true /\
  SFleb (percentile_fraction (x_percentile_arg (resolve_config a))) F32.one = true /\
  SFleb (S754_zero false) (percentile_fraction (y_percentile_arg (resolve_config a))) = true /\
  SFleb (percentile_fraction (y_percentile_arg (resolve_config a))) F32.one = true.
Proof.
  unfold args_in_range. rewrite !andb_true_iff. intros (((((((( _ & _) & _) & Hp) & Hx) & Hy) & _) & _) & _).
  pose proof (fraction_in_unit_all _ (unwrap_or_in_range 0 100 _ _ Hx Hp)) as Fx.
  pose proof (fraction_in_unit_all _ (unwrap_or_in_range 0 100 _ _ Hy Hp)) as Fy.
  unfold fraction_in_unit in Fx, Fy. rewrite andb_true_iff in Fx, Fy. simpl.
  tauto.
Qed.

Lemma resolved_fractions_in_unit_witness :
  SFleb (S754_zero false)
    (percentile_fraction (x_percentile_arg (resolve_config example_args))) = true /\
  SFleb (percentile_fraction (x_percentile_arg (resolve_config example_args))) F32.one
    = true /\
  SFleb (S754_zero false)
    (percentile_fraction (y_percentile_arg (resolve_config example_args))) = true /\
  SFleb (percentile_fraction (y_percentile_arg (resolve_config example_args))) F32.one
    = true.
Proof. apply resolved_fractions_in_unit. vm_compute. reflexivity. Defined.

(** X2: the percentile fraction never increases with the percentile:
    for [0 <= p <= q <= 100], [1.0 - q as f32 / 100.0] is at most
    [1.0 - p as f32 / 100.0] in f32. *)
Theorem percentile_fraction_antitone (p q : Z) :
  0 <= p <= q -> q <= 100 ->
  SFleb (percentile_fraction q) (percentile_fraction p) = true.
Proof.
  intros Hpq Hq.
  assert (H : fraction_antitone_at p = true)
    by (apply (range_check fraction_antitone_at 101); [vm_compute; reflexivity|lia]).
  unfold fraction_antitone_at in H. rewrite forallb_forall in H.
  specialize (H (Z.to_nat q) ltac:(apply in_seq; lia)). rewrite Z2Nat.id in H by lia.
  apply orb_true_iff in H as [H|H]; [apply Z.ltb_lt in H; lia|exact H].
Qed.

Lemma percentile_fraction_antitone_witness :
  SFleb (percentile_fraction 100) (percentile_fraction 0) = true.
Proof. apply percentile_fraction_antitone; lia. Defined.

(** X3: the scans read no pixel outside the image: two images with the
    same dimensions and the same luminance at every pixel inside them
    give the same outcome of the per-image code. *)
Theorem process_image_reads_inside (oc : bool) (cfg : config) (img1 img2 : image) :
  same_pixels img1 img2 -> process_image oc cfg img1 = process_image oc cfg img2.
Proof.
  intros Hs. unfold process_image.
  rewrite (scan_x_same_pixels img1 img2 _ Hs), (scan_y_same_pixels img1 img2 _ Hs).
  destruct Hs as (Hw & Hh & _). now rewrite Hw, Hh.
Qed.

Lemma process_image_reads_inside_witness :
  process_image true (uniform_config 250 95 0 None F32.one) (rect_image 5 4 2 3) =
  process_image true (uniform_config 250 95 0 None F32.one)
    {| width := 5; height := 4;
       luma := fun x y => if (Nat.ltb x 5 && Nat.ltb y 4)%bool
                          then luma (rect_image 5 4 2 3) x y else 0 |}.
Proof.
  apply process_image_reads_inside. split; [reflexivity|split; [reflexivity|]].
  intros x y Hx Hy. simpl.
  rewrite (proj2 (Nat.ltb_lt x 5) Hx), (proj2 (Nat.ltb_lt y 4) Hy). reflexivity.
Defined.

(** X4: with the same threshold on both axes, processing stops with the
    detection error exactly when no pixel of the image is below that
    threshold. *)
Theorem shared_threshold_detection (oc : bool) (cfg : config) (img : image) :
  x_threshold cfg = y_threshold cfg ->
  (process_image oc cfg img = panic DetectionFailed <->
   forall x y, (x < width img)%nat -> (y < height img)%nat ->
     x_threshold cfg <= luma img x y).
Proof.
  intros Ht. rewrite process_image_detection, scan_x_nil, scan_y_nil, <- Ht. tauto.
Qed.

Lemma shared_threshold_detection_witness :
  process_image true (uniform_config 0 95 0 None F32.one) (rect_image 5 4 2 3)
  = panic DetectionFailed.
Proof.
  apply (shared_threshold_detection true (uniform_config 0 95 0 None F32.one)
           (rect_image 5 4 2 3) eq_refl).
  intros x y _ _. simpl. destruct (_ && _)%bool; lia.
Defined.

(** X5: an image with no pixel, or a threshold of [0] on either axis
    (no [u8] luminance is below it), always ends in the detection
    error. *)
Theorem detection_fails_without_dark_pixels (oc : bool) (cfg : config) (img : image) :
  (forall x y, (x < width img)%nat -> (y < height img)%nat -> 0 <= luma img x y) ->
  (width img = 0%nat \/ height img = 0%nat \/ x_threshold cfg <= 0 \/
   y_threshold cfg <= 0) ->
  process_image oc cfg img = panic DetectionFailed.
Proof.
  intros Hl Hc. apply process_image_detection.
  rewrite scan_x_nil, scan_y_nil.
  destruct Hc as [Hw|[Hh|[Ht|Ht]]].
  - left. intros x y Hx. lia.
  - left. intros x y _ Hy. lia.
  - left. intros x y Hx Hy. specialize (Hl x y Hx Hy). lia.
  - right. intros x y Hx Hy. specialize (Hl x y Hx Hy). lia.
Qed.

Lemma detection_fails_without_dark_pixels_witness :
  process_image false (uniform_config 250 95 0 None F32.one) (rect_image 0 4 0 0)
  = panic DetectionFailed.
Proof.
  apply detection_fails_without_dark_pixels; [intros x y Hx _; simpl in Hx; lia|].
  left. reflexivity.
Defined.

(** X6: in a build with overflow checks, every crop rectangle that is
    produced lies inside the image and leaves room for the extra margin:
    [x_edge + x_extra < width] and [y_edge + y_extra < height]. *)
Theorem checked_crop_inside (cfg : config) (img : image) (p : processed) :
  process_image true cfg img = inr p -> 0 <= x_extra cfg -> 0 <= y_extra cfg ->
  Z.of_nat (width img) <= 2 ^ 32 -> Z.of_nat (height img) <= 2 ^ 32 ->
  0 <= crop_x_edge p /\ crop_x_edge p + x_extra cfg < Z.of_nat (width img) /\
  0 <= crop_y_edge p /\ crop_y_edge p + y_extra cfg < Z.of_nat (height img).
Proof.
  intros H Hex Hey Hw Hh. apply process_image_inv in H as (_ & _ & Hx & Hy & _).
  destruct (select_axis_checked _ _ _ _ Hx Hex) as (rx & Irx & Lx & ->).
  { intros r Hr. pose proof (scan_x_lt img _ r Hr). lia. }
  destruct (select_axis_checked _ _ _ _ Hy Hey) as (ry & Iry & Ly & ->).
  { intros r Hr. pose proof (scan_y_lt img _ r Hr). lia. }
  pose proof (scan_x_lt img _ rx Irx). pose proof (scan_y_lt img _ ry Iry). lia.
Qed.

Lemma checked_crop_inside_witness :
  0 <= 0 /\ 0 + 1 < 5 /\ 0 <= 1 /\ 1 + 1 < 4.
Proof.
  exact (checked_crop_inside (uniform_config 250 95 1 None F32.one) (rect_image 5 4 2 3)
           {| crop_x_edge := 0; crop_y_edge := 1; blurred_by := None;
              resize_width := 0; resize_height := 0 |}
           ltac:(vm_compute; reflexivity) ltac:(simpl; lia) ltac:(simpl; lia)
           ltac:(simpl; lia) ltac:(simpl; lia)).
Defined.

(** X7: in a build without overflow checks, each crop edge is an offset
    [r] found by the scan of its axis minus the extra margin, wrapped
    modulo [2^32]: [r - extra] when [extra <= r], [r - extra + 2^32]
    otherwise. *)
Theorem unchecked_crop_edges (cfg : config) (img : image) (p : processed) :
  process_image false cfg img = inr p ->
  0 <= x_extra cfg < 2 ^ 32 -> 0 <= y_extra cfg < 2 ^ 32 ->
  Z.of_nat (width img) <= 2 ^ 32 -> Z.of_nat (height img) <= 2 ^ 32 ->
  (exists rx, In rx (scan_x img (x_threshold cfg)) /\
     crop_x_edge p = (if x_extra cfg <=? rx then rx - x_extra cfg
                      else rx - x_extra cfg + 2 ^ 32)) /\
  (exists ry, In ry (scan_y img (y_threshold cfg)) /\
     crop_y_edge p = (if y_extra cfg <=? ry then ry - y_extra cfg
                      else ry - y_extra cfg + 2 ^ 32)).
Proof.
  intros H Hex Hey Hw Hh. apply process_image_inv in H as (_ & _ & Hx & Hy & _).
  split.
  - apply (select_axis_wrapping _ _ _ _ Hx Hex).
    intros r Hr. pose proof (scan_x_lt img _ r Hr). lia.
  - apply (select_axis_wrapping _ _ _ _ Hy Hey).
    intros r Hr. pose proof (scan_y_lt img _ r Hr). lia.
Qed.

Lemma unchecked_crop_edges_witness :
  (exists rx, In rx (scan_x (rect_image 5 4 2 3) 250) /\
     4294967294 = (if 3 <=? rx then rx - 3 else rx - 3 + 2 ^ 32)) /\
  (exists ry, In ry (scan_y (rect_image 5 4 2 3) 250) /\
     4294967295 = (if 3 <=? ry then ry - 3 else ry - 3 + 2 ^ 32)).
Proof.
  exact (unchecked_crop_edges (uniform_config 250 95 3 None F32.one) (rect_image 5 4 2 3)
           {| crop_x_edge := 4294967294; crop_y_edge := 4294967295; blurred_by := None;
              resize_width := 4294967295; resize_height := 3435973888 |}
           ltac:(vm_compute; reflexivity) ltac:(simpl; lia) ltac:(simpl; lia)
           ltac:(simpl; lia) ltac:(simpl; lia)).
Defined.

(** X8: on an image whose pixels below the (shared) threshold form the
    rectangle [[0,w) x [0,h)], with no extra margin and percentiles in
    [[0, 100]], the crop rectangle is [(w - 1) x (h - 1)] at every
    percentile: the crop [crop_imm(0, 0, x_edge, y_edge)] leaves out the
    last column and the last row of the rectangle. *)
Theorem dark_rectangle_crop (oc : bool) (cfg : config) (img : image) (w h : nat) :
  (1 <= w <= width img)%nat -> (1 <= h <= height img)%nat ->
  Z.of_nat (width img) <= 2 ^ 24 -> Z.of_nat (height img) <= 2 ^ 24 ->
  x_threshold cfg = y_threshold cfg ->
  (forall x y, (x < width img)%nat -> (y < height img)%nat ->
     (luma img x y < x_threshold cfg <-> (x < w)%nat /\ (y < h)%nat)) ->
  0 <= x_percentile_arg cfg <= 100 -> 0 <= y_percentile_arg cfg <= 100 ->
  x_extra cfg = 0 -> y_extra cfg = 0 ->
  exists p, process_image oc cfg img = inr p /\
            crop_x_edge p = Z.of_nat w - 1 /\ crop_y_edge p = Z.of_nat h - 1.
Proof.
  intros Hw Hh Hw24 Hh24 Ht Hdark Hpx Hpy Hex Hey. unfold process_image.
  rewrite <- Ht, (scan_x_dark_rect img (x_threshold cfg) w h Hw Hh Hdark),
    (scan_y_dark_rect img (x_threshold cfg) w h Hw Hh Hdark), Hex, Hey.
  replace (is_empty (repeat (Z.of_nat (w - 1)) h)) with false
    by (destruct h; [lia|reflexivity]).
  replace (is_empty (repeat (Z.of_nat (h - 1)) w)) with false
    by (destruct w; [lia|reflexivity]).
  simpl orb. cbv iota.
  rewrite (select_axis_repeat oc h _ (Z.of_nat (w - 1)) ltac:(lia) ltac:(lia) Hpx
             ltac:(lia)).
  rewrite (select_axis_repeat oc w _ (Z.of_nat (h - 1)) ltac:(lia) ltac:(lia) Hpy
             ltac:(lia)).
  simpl bind. destruct (target_dims _ _ _ _ _) as [nw nh].
  eexists. split; [reflexivity|]. simpl. lia.
Qed.

Lemma dark_rectangle_crop_witness :
  exists p, process_image true (uniform_config 250 50 0 None F32.one) (rect_image 5 4 2 3)
              = inr p /\
            crop_x_edge p = Z.of_nat 2 - 1 /\ crop_y_edge p = Z.of_nat 3 - 1.
Proof.
  apply dark_rectangle_crop; simpl; try lia.
  intros x y Hx Hy. apply (rect_image_dark 5 4 2 3 x y); assumption.
Defined.

(** X9: when the [--downscale] factor is negative, [-0.0], an infinity
    or NaN (all accepted by the [f32] parser), every run that reaches the
    resize resizes to [0 x 0]. *)
Theorem collapsing_downscale_empty_output (oc : bool) (cfg : config) (img : image)
    (p : processed) :
  collapsing_factor (downscale cfg) = true -> process_image oc cfg img = inr p ->
  resize_width p = 0 /\ resize_height p = 0.
Proof.
  intros Hd H. apply process_image_inv in H as (_ & _ & Hx & Hy & Ht & _).
  apply select_axis_nonneg in Hx. apply select_axis_nonneg in Hy.
  unfold target_dims in Ht.
  destruct (new_dims_sign (Z.of_nat (width img)) (Z.of_nat (height img))
              (crop_x_edge p) (crop_y_edge p) ltac:(lia) ltac:(lia) Hx Hy) as [S1 S2].
  destruct (new_dims _ _ _ _) as [nx ny]. simpl in S1, S2.
  injection Ht as -> ->. split; apply to_uint_div_collapsing; assumption.
Qed.

Lemma collapsing_downscale_empty_output_witness :
  resize_width {| crop_x_edge := 1; crop_y_edge := 2; blurred_by := None;
                  resize_width := 0; resize_height := 0 |} = 0 /\
  resize_height {| crop_x_edge := 1; crop_y_edge := 2; blurred_by := None;
                   resize_width := 0; resize_height := 0 |} = 0.
Proof.
  apply (collapsing_downscale_empty_output true
           (uniform_config 250 95 0 None (F32.of_Z (-1))) (rect_image 5 4 2 3));
    vm_compute; reflexivity.
Defined.

(** X10: a run saves the outputs of a prefix of the sources, in order,
    one per source: source [i] is decoded, processed, and saved to
    [output.join(file_name)], so sources with the same file name in
    different folders go to the same destination. The run ends with
    [Ok(())] exactly when every source was saved; otherwise the sources
    after the first failing one are never handled. *)
Theorem cpar_main_saves_prefix (oc : bool) (env : environment) (a : cli_args)
    (saved : list (path * processed)) (st : exit_status) :
  arg_source a <> [] -> cpar_main oc env a = (saved, st) ->
  (length saved <= length (arg_source a))%nat /\
  Forall2 (saved_as oc (resolve_config a) env (arg_output a))
    (firstn (length saved) (arg_source a)) saved /\
  (st = ExitOk <-> length saved = length (arg_source a)).
Proof.
  intros Hne. unfold cpar_main. destruct (create_dir_all_ok env (arg_output a)).
  - apply process_sources_spec.
  - intros H. injection H as <- <-. simpl.
    split; [lia|split; [constructor|split; [discriminate|]]].
    intros Hl. destruct (arg_source a); [congruence|discriminate].
Qed.

Lemma cpar_main_saves_prefix_witness :
  (length (fst (cpar_main true example_env example_args))
     <= length (arg_source example_args))%nat /\
  Forall2 (saved_as true (resolve_config example_args) example_env
             (arg_output example_args))
    (firstn (length (fst (cpar_main true example_env example_args)))
       (arg_source example_args))
    (fst (cpar_main true example_env example_args)) /\
  (snd (cpar_main true example_env example_args) = ExitOk <->
   length (fst (cpar_main true example_env example_args)) =
   length (arg_source example_args)).
Proof.
  apply cpar_main_saves_prefix; [discriminate|].
  vm_compute. reflexivity.
Defined.

(** X11: for arguments in the parser's ranges and sources that decode
    to images at most [2^24] pixels wide and high, a run never panics on
    the percentile lookup. *)
Theorem cpar_main_no_index_panic (oc : bool) (env : environment) (a : cli_args)
    (saved : list (path * processed)) (st : exit_status) :
  args_in_range a = true ->
  (forall src img, In src (arg_source a) -> open_decode env src = Some (Some img) ->
     Z.of_nat (width img) <= 2 ^ 24 /\ Z.of_nat (height img) <= 2 ^ 24) ->
  cpar_main oc env a = (saved, st) ->
  st <> ExitPanic (ProcessingPanic IndexOutOfBounds).
Proof.
  intros Ha Himg H ->. unfold cpar_main in H.
  destruct (create_dir_all_ok env (arg_output a)); [|discriminate].
  destruct (process_sources_panic _ _ _ _ _ _ _ H) as (src & img & Hi & Ho & Hp).
  destruct (Himg src img Hi Ho) as [Hw Hh].
  unfold args_in_range in Ha. rewrite !andb_true_iff in Ha.
  destruct Ha as (((((((( _ & _) & _) & Hpc) & Hx) & Hy) & _) & _) & _).
  revert Hp. apply process_image_not_index; [| |exact Hw|exact Hh];
    apply unwrap_or_in_range; assumption.
Qed.

Lemma cpar_main_no_index_panic_witness :
  snd (cpar_main false example_env example_args)
  <> ExitPanic (ProcessingPanic IndexOutOfBounds).
Proof.
  apply (cpar_main_no_index_panic false example_env example_args
           (fst (cpar_main false example_env example_args))).
  - vm_compute. reflexivity.
  - intros src img _ Ho. simpl in Ho.
    destruct src as [|c [|c' src']]; try discriminate; injection Ho as <-; simpl; lia.
  - vm_compute. reflexivity.
Defined.

(** X12: with no extra margin on either axis (the default [--extra 0]),
    processing never panics with an overflowing subtraction, whatever the
    build profile. *)
Theorem zero_extra_no_overflow (oc : bool) (cfg : config) (img : image) :
  x_extra cfg = 0 -> y_extra cfg = 0 ->
  process_image oc cfg img <> panic SubtractOverflow.
Proof.
  intros Hex Hey. unfold process_image. rewrite Hex, Hey.
  destruct (is_empty _ || is_empty _); [unfold panic; discriminate|].
  destruct (select_axis oc (scan_x img (x_threshold cfg)) _ _) as [r|xe] eqn:Ex; simpl.
  { intros Hr. injection Hr as ->. revert Ex. apply select_axis_zero_extra.
    intros r Hr. apply (scan_x_lt img _ r Hr). }
  destruct (select_axis oc (scan_y img (y_threshold cfg)) _ _) as [r|ye] eqn:Ey; simpl.
  { intros Hr. injection Hr as ->. revert Ey. apply select_axis_zero_extra.
    intros r Hr. apply (scan_y_lt img _ r Hr). }
  destruct (target_dims _ _ _ _ _); discriminate.
Qed.

Lemma zero_extra_no_overflow_witness :
  process_image true (uniform_config 250 95 0 None F32.one) (rect_image 5 4 2 3)
  <> panic SubtractOverflow.
Proof. apply zero_extra_no_overflow; reflexivity. Defined.
